(** * LearnerND: a shallow embedding of [adaptive/learner/learnerND.py]

    The adaptive-sampling engine keeps a triangulation of the sampled
    points, a loss per simplex, and a lazily validated priority heap of
    (sub)simplices.  Python floats are idealised as exact rationals [Q];
    [np.inf] is a separate constructor.  Python exceptions are values of
    [exn]; an operation that raises keeps the mutations it made before
    raising, so every action returns the state together with its outcome. *)

From Stdlib Require Import List Bool Arith Lia QArith Qabs.
Import ListNotations.

Set Implicit Arguments.
Close Scope Q_scope.
Open Scope nat_scope.

(** ** Exceptions and the state-and-exception monad *)

Inductive exn : Type :=
| KeyError | IndexError | ZeroDivisionError | TypeError | ValueError
| LinAlgError | AssertionError | AttributeError | StopIteration.

Inductive outcome (A : Type) : Type :=
| Val (a : A)
| Exn (e : exn).
Arguments Val {A} a.
Arguments Exn {A} e.

Definition M (S A : Type) : Type := S -> outcome A * S.

Definition ret {S A} (a : A) : M S A := fun s => (Val a, s).
Definition raise {S A} (e : exn) : M S A := fun s => (Exn e, s).
Definition bind {S A B} (m : M S A) (k : A -> M S B) : M S B :=
  fun s => match m s with
           | (Val a, s') => k a s'
           | (Exn e, s') => (Exn e, s')
           end.
Definition get {S} : M S S := fun s => (Val s, s).
Definition modify {S} (f : S -> S) : M S unit := fun s => (Val tt, f s).
Definition lift {S A} (o : outcome A) : M S A := fun s => (o, s).

Declare Scope py_scope.
Delimit Scope py_scope with py.
Notation "x <- m ;; k" := (bind m (fun x => k))
  (at level 61, m at next level, right associativity) : py_scope.
Notation "m ;;; k" := (bind m (fun _ => k))
  (at level 61, right associativity) : py_scope.
Open Scope py_scope.

(** A Python [for] loop over a list, threading the state; it stops at the
    first exception. *)
Fixpoint for_each {S A} (l : list A) (body : A -> M S unit) : M S unit :=
  match l with
  | [] => ret tt
  | x :: l' => body x ;;; for_each l' body
  end.

(** ** Numbers, points, values *)

(** Python's float division raises on a zero divisor. *)
Definition pydiv (a b : Q) : outcome Q :=
  if Qeq_bool b 0%Q then Exn ZeroDivisionError else Val (a / b)%Q.

(** [np.inf] and finite floats, as reported priorities and losses. *)
Inductive priority : Type :=
| Finite (q : Q)
| Infinity.

Definition Point : Type := list Q.

(** Tuple equality [p == q]: same length, componentwise [==]. *)
Fixpoint point_eqb (p q : Point) : bool :=
  match p, q with
  | [], [] => true
  | x :: p', y :: q' => Qeq_bool x y && point_eqb p' q'
  | _, _ => false
  end.

(** A told value: a real scalar or an array-like of reals. *)
Inductive value : Type :=
| Scalar (y : Q)
| Vector (ys : list Q).

(** A simplex is a tuple of vertex indices of its triangulation. *)
Definition Simplex : Type := list nat.

(** Tuple equality of simplices. *)
Fixpoint simplex_eqb (a b : Simplex) : bool :=
  match a, b with
  | [], [] => true
  | x :: a', y :: b' => Nat.eqb x y && simplex_eqb a' b'
  | _, _ => false
  end.

(** ** Dictionaries and sets

    [dict] keeps insertion order (an OrderedDict, and every dict since
    Python 3.7); a set is a duplicate-free list. *)

Section Containers.
Variables K V : Type.
Variable eqb : K -> K -> bool.

Fixpoint dict_get (d : list (K * V)) (k : K) : option V :=
  match d with
  | [] => None
  | (k', v) :: d' => if eqb k k' then Some v else dict_get d' k
  end.

Definition dict_mem (d : list (K * V)) (k : K) : bool :=
  match dict_get d k with Some _ => true | None => false end.

(** [d[k] = v]: overwrite in place, or append a new key. *)
Fixpoint dict_set (d : list (K * V)) (k : K) (v : V) : list (K * V) :=
  match d with
  | [] => [(k, v)]
  | (k', v') :: d' =>
      if eqb k k' then (k', v) :: d' else (k', v') :: dict_set d' k v
  end.

(** [d.pop(k, None)]. *)
Fixpoint dict_pop (d : list (K * V)) (k : K) : option V * list (K * V) :=
  match d with
  | [] => (None, [])
  | (k', v) :: d' =>
      if eqb k k' then (Some v, d')
      else let (r, d'') := dict_pop d' k in (r, (k', v) :: d'')
  end.

Fixpoint set_mem (s : list K) (k : K) : bool :=
  match s with
  | [] => false
  | k' :: s' => eqb k k' || set_mem s' k
  end.

Definition set_add (s : list K) (k : K) : list K :=
  if set_mem s k then s else s ++ [k].

Fixpoint set_discard (s : list K) (k : K) : list K :=
  match s with
  | [] => []
  | k' :: s' => if eqb k k' then set_discard s' k else k' :: set_discard s' k
  end.

Definition set_update (s : list K) (l : list K) : list K :=
  fold_left set_add l s.
End Containers.

(** ** [heapq] over tuples [(-loss, simplex, subsimplex)] *)

Record entry : Type := mk_entry {
  neg_loss : Q;
  home : Simplex;
  sub : option Simplex
}.

(** Lexicographic order on tuples of ints. *)
Fixpoint simplex_ltb (a b : Simplex) : bool :=
  match a, b with
  | [], [] => false
  | [], _ :: _ => true
  | _ :: _, [] => false
  | x :: a', y :: b' =>
      if Nat.eqb x y then simplex_ltb a' b' else Nat.ltb x y
  end.

Definition Qltb (a b : Q) : bool := negb (Qle_bool b a).

(** Tuple [<]: the first position where the two differ decides; [None]
    against a tuple is not orderable. *)
Definition entry_lt (a b : entry) : outcome bool :=
  if negb (Qeq_bool (neg_loss a) (neg_loss b)) then
    Val (Qltb (neg_loss a) (neg_loss b))
  else if negb (simplex_eqb (home a) (home b)) then
    Val (simplex_ltb (home a) (home b))
  else match sub a, sub b with
       | None, None => Val false
       | Some x, Some y => Val (simplex_ltb x y)
       | _, _ => Exn TypeError
       end.

Definition heap : Type := list entry.

Fixpoint list_set {A} (l : list A) (i : nat) (x : A) : list A :=
  match l, i with
  | [], _ => []
  | _ :: l', O => x :: l'
  | y :: l', S i' => y :: list_set l' i' x
  end.

Definition dummy_entry : entry := mk_entry 0%Q [] None.

(** [_siftdown(heap, startpos, pos)] with [newitem] held aside. *)
Fixpoint siftdown_loop (fuel : nat) (h : heap) (startpos pos : nat)
         (newitem : entry) : outcome heap :=
  match fuel with
  | O => Val (list_set h pos newitem)
  | S fuel' =>
      if startpos <? pos then
        let parentpos := (pos - 1) / 2 in
        let parent := nth parentpos h dummy_entry in
        match entry_lt newitem parent with
        | Exn e => Exn e
        | Val true =>
            siftdown_loop fuel' (list_set h pos parent) startpos parentpos
                          newitem
        | Val false => Val (list_set h pos newitem)
        end
      else Val (list_set h pos newitem)
  end.

Definition siftdown (h : heap) (startpos pos : nat) : outcome heap :=
  siftdown_loop (S pos) h startpos pos (nth pos h dummy_entry).

Definition heappush (h : heap) (item : entry) : outcome heap :=
  let h' := h ++ [item] in
  siftdown h' 0 (length h' - 1).

(** The loop of [_siftup]: returns the heap and the final [pos]. *)
Fixpoint siftup_loop (fuel : nat) (h : heap) (pos : nat)
  : outcome (heap * nat) :=
  match fuel with
  | O => Val (h, pos)
  | S fuel' =>
      let endpos := length h in
      let childpos := 2 * pos + 1 in
      if childpos <? endpos then
        let rightpos := childpos + 1 in
        let pick :=
          if rightpos <? endpos then
            match entry_lt (nth childpos h dummy_entry)
                           (nth rightpos h dummy_entry) with
            | Exn e => Exn e
            | Val true => Val childpos
            | Val false => Val rightpos
            end
          else Val childpos in
        match pick with
        | Exn e => Exn e
        | Val c =>
            siftup_loop fuel' (list_set h pos (nth c h dummy_entry)) c
        end
      else Val (h, pos)
  end.

Definition siftup (h : heap) (pos : nat) : outcome heap :=
  let newitem := nth pos h dummy_entry in
  match siftup_loop (length h) h pos with
  | Exn e => Exn e
  | Val (h', pos') =>
      siftdown_loop (S pos') h' pos pos' newitem
  end.

(** [heappop]: [IndexError] on an empty heap. *)
Definition heappop (h : heap) : outcome (entry * heap) :=
  match rev h with
  | [] => Exn IndexError
  | lastelt :: r =>
      let h' := rev r in
      match h' with
      | [] => Val (lastelt, [])
      | returnitem :: _ =>
          match siftup (list_set h' 0 lastelt) 0 with
          | Exn e => Exn e
          | Val h'' => Val (returnitem, h'')
          end
      end
  end.

(** ** Linear algebra over exact rationals (the numpy calls of the module) *)

Definition Matrix : Type := list (list Q).

Definition vadd (u v : list Q) : list Q := map (fun p => (fst p + snd p)%Q) (combine u v).
Definition vsub (u v : list Q) : list Q := map (fun p => (fst p - snd p)%Q) (combine u v).
Definition vscale (c : Q) (v : list Q) : list Q := map (fun x => (c * x)%Q) v.
Definition vdot (u v : list Q) : Q :=
  fold_right Qplus 0%Q (map (fun p => (fst p * snd p)%Q) (combine u v)).
Definition vdivc (v : list Q) (c : Q) : list Q := map (fun x => (x / c)%Q) v.
Definition vsum (n : nat) (rows : list (list Q)) : list Q :=
  fold_right vadd (repeat 0%Q n) rows.

(** [np.dot(m, v)] for a matrix and a vector. *)
Definition mat_vec (m : Matrix) (v : list Q) : list Q := map (fun row => vdot row v) m.

(** [np.dot(v, m)] for a row vector and a matrix: the combination of the
    rows of [m] with the coefficients of [v]. *)
Definition vec_mat (v : list Q) (m : Matrix) : list Q :=
  match m with
  | [] => []
  | r :: _ => vsum (length r) (map (fun p => vscale (fst p) (snd p)) (combine v m))
  end.

(** [np.dot(simplex, transform)]: every row of the simplex times the matrix. *)
Definition mat_mul (a b : Matrix) : Matrix := map (fun row => vec_mat row b) a.

Fixpoint remove_nth {A} (j : nat) (l : list A) : list A :=
  match l, j with
  | [], _ => []
  | _ :: l', O => l'
  | x :: l', S j' => x :: remove_nth j' l'
  end.

(** Determinant by expansion along the first row. *)
Fixpoint det_fuel (n : nat) (m : Matrix) : Q :=
  match n, m with
  | S n', row :: rest =>
      fold_right Qplus 0%Q
        (map (fun jx =>
                let j := fst jx in
                ((if Nat.even j then 1 else -1) * snd jx
                 * det_fuel n' (map (remove_nth j) rest))%Q)
             (combine (seq 0 (length row)) row))
  | _, _ => 1%Q
  end.

Definition det (m : Matrix) : Q := det_fuel (length m) m.

Definition replace_col (m : Matrix) (i : nat) (b : list Q) : Matrix :=
  map (fun rb => list_set (fst rb) i (snd rb)) (combine m b).

(** [np.linalg.solve(a, b)]: the [x] with [a @ x = b], by Cramer's rule;
    a singular matrix raises. *)
Definition solve (a : Matrix) (b : list Q) : outcome (list Q) :=
  let d := det a in
  if Qeq_bool d 0%Q then Exn LinAlgError
  else Val (map (fun i => (det (replace_col a i b) / d)%Q) (seq 0 (length a))).

(** [np.average(simplex, axis=0)]. *)
Definition average (rows : list (list Q)) : list Q :=
  match rows with
  | [] => []
  | r :: _ => vdivc (vsum (length r) rows) (inject_Z (Z.of_nat (length rows)))
  end.

Definition sqdist (u v : list Q) : Q := let w := vsub u v in vdot w w.

(** [np.unravel_index(np.argmax(distance_matrix), shape)]: the first pair
    [(i, j)], in row-major order, whose distance is maximal.  Distances
    are compared through their squares. *)
Definition argmax_pair (rows : list (list Q)) : nat * nat :=
  let n := length rows in
  let cells := list_prod (seq 0 n) (seq 0 n) in
  let d ij := sqdist (nth (fst ij) rows []) (nth (snd ij) rows []) in
  fold_left (fun best ij => if Qltb (d best) (d ij) then ij else best)
            cells (0, 0).

Fixpoint factorial (n : nat) : nat :=
  match n with O => 1 | S n' => n * factorial n' end.

(** ** Module-level functions of [learnerND.py] *)

(** [volume(simplex)]: |det(simplex[:-1] - simplex[-1])| / dim!. *)
Definition volume (simplex : list Point) : Q :=
  let lastp := last simplex [] in
  let matrix := map (fun p => vsub p lastp) (removelast simplex) in
  let dim := length simplex - 1 in
  (Qabs (det matrix) / inject_Z (Z.of_nat (factorial dim)))%Q.

(** [orientation(simplex)]: the sign of the determinant that [volume]
    takes the absolute value of ([np.linalg.slogdet] gives -1, 0 or 1). *)
Definition orientation (simplex : list Point) : Z :=
  let lastp := last simplex [] in
  let matrix := map (fun p => vsub p lastp) (removelast simplex) in
  match Qcompare (det matrix) 0%Q with
  | Lt => (-1)%Z
  | Eq => 0%Z
  | Gt => 1%Z
  end.

Definition uniform_loss (simplex : list Point) (ys : list value) : outcome Q :=
  Val (volume simplex).

Definition value_coords (y : value) : list Q :=
  match y with Scalar q => [q] | Vector l => l end.

(** The geometry kernel imported from the triangulation module. *)
Record Kernel : Type := {
  (** centre of the circumsphere; its radius is discarded by the caller *)
  circumsphere : list Point -> outcome Point;
  point_in_simplex : Point -> list Point -> outcome bool;
  simplex_volume_in_embedding : list Point -> outcome Q
}.

Section ModuleFunctions.
Variable kernel : Kernel.

(** [default_loss]: the vertices lifted by their values. *)
Definition default_loss (simplex : list Point) (ys : list value) : outcome Q :=
  simplex_volume_in_embedding kernel
    (map (fun xy => fst xy ++ value_coords (snd xy)) (combine simplex ys)).

(** [choose_point_in_simplex(simplex, transform)]. *)
Definition choose_point_in_simplex (simplex : list Point)
           (transform : option Matrix) : outcome Point :=
  let simplex' := match transform with
                  | Some t => mat_mul simplex t
                  | None => simplex
                  end in
  match circumsphere kernel simplex' with
  | Exn e => Exn e
  | Val center =>
      match point_in_simplex kernel center simplex' with
      | Exn e => Exn e
      | Val inside =>
          let point :=
            if inside then average simplex'
            else let (i, j) := argmax_pair simplex' in
                 vdivc (vadd (nth i simplex' []) (nth j simplex' [])) 2%Q in
          match transform with
          | Some t => solve t point
          | None => Val point
          end
      end
  end.
End ModuleFunctions.

(** ** The collaborators of the engine *)

(** The incremental triangulation of [triangulation.py], consumed through
    its interface.  A triangulation object is a value of [tri_t]; a call
    that mutates the object returns the new value.  Sets of simplices are
    lists in the order in which Python iterates them. *)
Record Service : Type := {
  tri_t : Type;
  (** [Triangulation(coords)] *)
  Triangulation : list Point -> outcome tri_t;
  (** [t.add_point(point, simplex=None, transform=None)]: the mutated
      triangulation with [(to_delete, to_add)] *)
  add_point : tri_t -> Point -> option Simplex -> option Matrix ->
              outcome (tri_t * (list Simplex * list Simplex));
  (** [t.locate_point(point)]: [()] when the point is outside *)
  locate_point : tri_t -> Point -> Simplex;
  (** [t.vertex_to_simplices[i]] *)
  vertex_to_simplices : tri_t -> nat -> outcome (list Simplex);
  (** [t.point_in_simplex(point, simplex)] *)
  tri_point_in_simplex : tri_t -> Point -> Simplex -> bool;
  get_vertices : tri_t -> Simplex -> list Point;
  (** [t.volume(simplex)], a Python float *)
  tri_volume : tri_t -> Simplex -> Q;
  simplices : tri_t -> list Simplex;
  vertices : tri_t -> list Point
}.

(** Library numerics the module calls: numpy, scipy, rtree and the
    Mersenne Twister behind [random.Random(1)]. *)
Record Numerics : Type := {
  (** [np.linalg.matrix_rank] *)
  matrix_rank : Matrix -> nat;
  (** [scipy.spatial.Delaunay(pts).simplices[0]] *)
  delaunay_first_simplex : list Point -> outcome Simplex;
  (** the k-th number drawn from [random.Random(1).random()] *)
  random_stream : nat -> Q;
  (** [index.nearest(coordinates, k)] of the rtree *)
  nearest : list (nat * Point) -> Point -> nat -> list nat;
  (** lines 292-315 of the anisotropic transform: the least-squares fit
      and the stretched matrix; [None] when the gradient is negligible *)
  gradient_transform : nat -> Matrix -> list Point -> list value -> option Matrix
}.

(** [find_initial_simplex(pts, ndim)] *)
Definition find_initial_simplex (nm : Numerics) (pts : list Point) (ndim : nat)
  : outcome (option Simplex) :=
  match pts with
  | [] => Exn IndexError
  | origin :: rest =>
      let vecs := map (fun p => vsub p origin) rest in
      if matrix_rank nm vecs <? ndim then Val None
      else match delaunay_first_simplex nm pts with
           | Exn e => Exn e
           | Val simplex => Val (Some simplex)
           end
  end.

(** What [print] wrote to the standard output. *)
Inductive printed : Type :=
| PrintedPoint (p : Point)
| PrintedMatrix (m : Matrix).

Fixpoint insert_sorted (x : nat) (l : list nat) : list nat :=
  match l with
  | [] => [x]
  | y :: l' => if x <=? y then x :: l else y :: insert_sorted x l'
  end.

Definition sorted (l : list nat) : list nat := fold_right insert_sorted [] l.

(** [itertools.product] of the bound pairs: the corners of the box. *)
Fixpoint product (bounds : list (Q * Q)) : list Point :=
  match bounds with
  | [] => [[]]
  | (a, b) :: rest =>
      map (cons a) (product rest) ++ map (cons b) (product rest)
  end.

(** [np.diff(bounds).flat] *)
Definition diff (bounds : list (Q * Q)) : list Q :=
  map (fun ab => (snd ab - fst ab)%Q) bounds.

Fixpoint diag_inv (n i : nat) (d : list Q) : Matrix :=
  match d with
  | [] => []
  | x :: d' => list_set (repeat 0%Q n) i (1 / x)%Q :: diag_inv n (S i) d'
  end.

(** [np.linalg.inv(np.diag(d))]: singular when an entry is zero. *)
Definition inv_diag (d : list Q) : outcome Matrix :=
  if existsb (fun x => Qeq_bool x 0%Q) d then Exn LinAlgError
  else Val (diag_inv (length d) 0 d).

(** ** The learner *)

Section Learner.
Variable svc : Service.
Variable nm : Numerics.
Variable kernel : Kernel.
(** the [loss_per_simplex] given at construction, already wrapped in
    [float(...)] *)
Variable loss_per_simplex : list Point -> list value -> outcome Q.

Abbreviation tri_obj := (tri_t svc).

(** The attributes of a [LearnerND] object, with the standard output.
    [_random] counts the numbers drawn so far from the private
    generator [random.Random(1)]. *)
Record LearnerND : Type := mkLearner {
  ndim : nat;
  _vdim : option nat;
  bounds : list (Q * Q);
  data : list (Point * value);
  _pending : list Point;
  _bounds_points : list Point;
  _tri : option tri_obj;
  _losses : list (Simplex * Q);
  _pending_to_simplex : list (Point * Simplex);
  _subtriangulations : list (Simplex * tri_obj);
  _scale_matrix : Matrix;
  _random : nat;
  _point_tree : list (nat * Point);
  anisotripic : bool;
  _losses_combined : heap;
  stdout : list printed
}.

Definition set_vdim v s := mkLearner (ndim s) v (bounds s) (data s) (_pending s)
  (_bounds_points s) (_tri s) (_losses s) (_pending_to_simplex s)
  (_subtriangulations s) (_scale_matrix s) (_random s) (_point_tree s)
  (anisotripic s) (_losses_combined s) (stdout s).
Definition set_data v s := mkLearner (ndim s) (_vdim s) (bounds s) v (_pending s)
  (_bounds_points s) (_tri s) (_losses s) (_pending_to_simplex s)
  (_subtriangulations s) (_scale_matrix s) (_random s) (_point_tree s)
  (anisotripic s) (_losses_combined s) (stdout s).
Definition set_pending v s := mkLearner (ndim s) (_vdim s) (bounds s) (data s) v
  (_bounds_points s) (_tri s) (_losses s) (_pending_to_simplex s)
  (_subtriangulations s) (_scale_matrix s) (_random s) (_point_tree s)
  (anisotripic s) (_losses_combined s) (stdout s).
Definition set_tri v s := mkLearner (ndim s) (_vdim s) (bounds s) (data s) (_pending s)
  (_bounds_points s) v (_losses s) (_pending_to_simplex s)
  (_subtriangulations s) (_scale_matrix s) (_random s) (_point_tree s)
  (anisotripic s) (_losses_combined s) (stdout s).
Definition set_losses v s := mkLearner (ndim s) (_vdim s) (bounds s) (data s) (_pending s)
  (_bounds_points s) (_tri s) v (_pending_to_simplex s)
  (_subtriangulations s) (_scale_matrix s) (_random s) (_point_tree s)
  (anisotripic s) (_losses_combined s) (stdout s).
Definition set_pending_to_simplex v s := mkLearner (ndim s) (_vdim s) (bounds s) (data s)
  (_pending s) (_bounds_points s) (_tri s) (_losses s) v
  (_subtriangulations s) (_scale_matrix s) (_random s) (_point_tree s)
  (anisotripic s) (_losses_combined s) (stdout s).
Definition set_subtriangulations v s := mkLearner (ndim s) (_vdim s) (bounds s) (data s)
  (_pending s) (_bounds_points s) (_tri s) (_losses s) (_pending_to_simplex s)
  v (_scale_matrix s) (_random s) (_point_tree s)
  (anisotripic s) (_losses_combined s) (stdout s).
Definition set_random v s := mkLearner (ndim s) (_vdim s) (bounds s) (data s)
  (_pending s) (_bounds_points s) (_tri s) (_losses s) (_pending_to_simplex s)
  (_subtriangulations s) (_scale_matrix s) v (_point_tree s)
  (anisotripic s) (_losses_combined s) (stdout s).
Definition set_point_tree v s := mkLearner (ndim s) (_vdim s) (bounds s) (data s)
  (_pending s) (_bounds_points s) (_tri s) (_losses s) (_pending_to_simplex s)
  (_subtriangulations s) (_scale_matrix s) (_random s) v
  (anisotripic s) (_losses_combined s) (stdout s).
Definition set_losses_combined v s := mkLearner (ndim s) (_vdim s) (bounds s) (data s)
  (_pending s) (_bounds_points s) (_tri s) (_losses s) (_pending_to_simplex s)
  (_subtriangulations s) (_scale_matrix s) (_random s) (_point_tree s)
  (anisotripic s) v (stdout s).
Definition set_stdout v s := mkLearner (ndim s) (_vdim s) (bounds s) (data s)
  (_pending s) (_bounds_points s) (_tri s) (_losses s) (_pending_to_simplex s)
  (_subtriangulations s) (_scale_matrix s) (_random s) (_point_tree s)
  (anisotripic s) (_losses_combined s) v.

Abbreviation Act := (M LearnerND).

(** [__init__(func, bounds, loss_per_simplex, anisotropic)].  [func] is
    only stored; the engine never calls it. *)
Definition init (bnds : list (Q * Q)) (anisotropic : bool) : outcome LearnerND :=
  match inv_diag (diff bnds) with
  | Exn e => Exn e
  | Val scale =>
      Val (mkLearner (length bnds) None bnds [] [] (product bnds) None []
                     [] [] scale 0 [] anisotropic [] [])
  end.

Definition in_data (s : LearnerND) (p : Point) : bool :=
  dict_mem point_eqb (data s) p.
Definition in_pending (s : LearnerND) (p : Point) : bool :=
  set_mem point_eqb (_pending s) p.

(** property [npoints] *)
Definition npoints (s : LearnerND) : nat := length (data s).

(** property [points] *)
Definition points (s : LearnerND) : list Point := map fst (data s).

(** property [vdim]: caches the length of the first stored value. *)
Definition vdim : Act nat :=
  s <- get ;;
  (match _vdim s, data s with
   | None, (_, v) :: _ =>
       modify (set_vdim (Some match v with
                              | Vector ys => length ys
                              | Scalar _ => 1
                              end))
   | _, _ => ret tt
   end) ;;;
  s' <- get ;;
  ret (match _vdim s' with Some n => n | None => 1 end).

(** property [bounds_are_done] *)
Definition bounds_are_done (s : LearnerND) : bool :=
  forallb (in_data s) (_bounds_points s).

(** [a[i]] on a list. *)
Definition index {A} (l : list A) (i : nat) : outcome A :=
  match nth_error l i with Some x => Val x | None => Exn IndexError end.

Fixpoint index_all {A} (l : list A) (idxs : list nat) : outcome (list A) :=
  match idxs with
  | [] => Val []
  | i :: idxs' =>
      match index l i, index_all l idxs' with
      | Val x, Val xs => Val (x :: xs)
      | Exn e, _ => Exn e
      | _, Exn e => Exn e
      end
  end.

Definition enumerate {A} (l : list A) : list (nat * A) :=
  combine (seq 0 (length l)) l.

(** The loop [for p in to_add: self._tri.add_point(p, transform=...)]. *)
Fixpoint tri_add_all (to_add : list Point) : Act unit :=
  match to_add with
  | [] => ret tt
  | p :: rest =>
      s <- get ;;
      match _tri s with
      | None => raise AttributeError
      | Some t =>
          r <- lift (add_point svc t p None (Some (_scale_matrix s))) ;;
          modify (set_tri (Some (fst r))) ;;;
          tri_add_all rest
      end
  end.

(** property [tri].  When it builds the triangulation it falls off the
    end of the function, so that access yields [None]. *)
Definition tri : Act (option tri_obj) :=
  s <- get ;;
  match _tri s with
  | Some t => ret (Some t)
  | None =>
      if length (data s) <? 2 then ret None
      else
        initial_simplex <- lift (find_initial_simplex nm (points s) (ndim s)) ;;
        match initial_simplex with
        | None => ret None
        | Some initial =>
            pts <- lift (index_all (points s) initial) ;;
            t0 <- lift (Triangulation svc pts) ;;
            modify (set_tri (Some t0)) ;;;
            tri_add_all
              (map snd (filter (fun ip => negb (existsb (Nat.eqb (fst ip)) initial))
                               (enumerate (points s)))) ;;;
            ret None
        end
  end.

(** [self.tri.attr] on whatever the property returned. *)
Definition tri_required : Act tri_obj :=
  t <- tri ;;
  match t with
  | Some t' => ret t'
  | None => raise AttributeError
  end.

Definition print (x : printed) : Act unit :=
  modify (fun s => set_stdout (stdout s ++ [x]) s).

(** [_simplex_exists(simplex)] *)
Definition _simplex_exists (simplex : Simplex) : Act bool :=
  t <- tri_required ;;
  ret (existsb (simplex_eqb (sorted simplex)) (simplices svc t)).

(** [get_local_transform_matrix(point)] *)
Definition get_local_transform_matrix (point : Point) : Act Matrix :=
  s <- get ;;
  let scale := _scale_matrix s in
  t <- tri ;;
  match t with
  | None => ret scale
  | Some _ =>
      if negb (anisotripic s) then ret scale
      else
        s1 <- get ;;
        let scaled_point := mat_vec scale point in
        let indices := nearest nm (_point_tree s1) scaled_point 10 in
        pts <- lift (index_all (points s1) indices) ;;
        values <- lift (fold_right
                          (fun p acc =>
                             match dict_get point_eqb (data s1) p, acc with
                             | _, Exn e => Exn e
                             | None, _ => Exn KeyError
                             | Some v, Val vs => Val (v :: vs)
                             end) (Val []) pts) ;;
        match values with
        | [] => raise IndexError
        | Vector _ :: _ => raise ValueError
        | Scalar _ :: _ =>
            match gradient_transform nm (ndim s1) scale pts values with
            | None => ret scale
            | Some m => print (PrintedMatrix m) ;;; ret m
            end
        end
  end.

(** [heapq.heappush(self._losses_combined, item)] *)
Definition push_loss (item : entry) : Act unit :=
  s <- get ;;
  h <- lift (heappush (_losses_combined s) item) ;;
  modify (set_losses_combined h).

(** The loop [for subsimplex in ...: heappush(..., (-subloss, simpl, subsimplex))]. *)
Definition push_sublosses (subtriangulation : tri_obj) (loss_density : Q)
           (simpl : Simplex) (cells : list Simplex) : Act unit :=
  for_each cells (fun subsimplex =>
    let subloss := (tri_volume svc subtriangulation subsimplex * loss_density)%Q in
    push_loss (mk_entry (- subloss)%Q simpl (Some subsimplex))).

(** [set.union] of a list of sets. *)
Definition set_union_all (sets : list (list Simplex)) : list Simplex :=
  fold_left (set_update simplex_eqb) sets [].

Fixpoint collect {A B} (f : A -> outcome B) (l : list A) : outcome (list B) :=
  match l with
  | [] => Val []
  | x :: l' =>
      match f x with
      | Exn e => Exn e
      | Val y => match collect f l' with
                 | Exn e => Exn e
                 | Val ys => Val (y :: ys)
                 end
      end
  end.

(** The body of the loop over [neighbours] in [_tell_pending]. *)
Definition tell_pending_in (point : Point) (simpl : Simplex) : Act unit :=
  t <- tri_required ;;
  if negb (tri_point_in_simplex svc t point simpl) then ret tt
  else
    s <- get ;;
    toadd <-
      match dict_get simplex_eqb (_subtriangulations s) simpl with
      | None =>
          t1 <- tri_required ;;
          let vertices := get_vertices svc t1 simpl in
          tr <- lift (Triangulation svc vertices) ;;
          modify (fun s => set_subtriangulations
                             (dict_set simplex_eqb (_subtriangulations s) simpl tr) s) ;;;
          first <- lift (match simplices svc tr with
                         | [] => Exn StopIteration
                         | c :: _ => Val c
                         end) ;;
          r <- lift (add_point svc tr point (Some first) None) ;;
          modify (fun s => set_subtriangulations
                             (dict_set simplex_eqb (_subtriangulations s) simpl (fst r)) s) ;;;
          ret (snd (snd r))
      | Some tr =>
          r <- lift (add_point svc tr point None None) ;;
          modify (fun s => set_subtriangulations
                             (dict_set simplex_eqb (_subtriangulations s) simpl (fst r)) s) ;;;
          ret (snd (snd r))
      end ;;
    s1 <- get ;;
    loss <- lift (match dict_get simplex_eqb (_losses s1) simpl with
                  | Some l => Val l
                  | None => Exn KeyError
                  end) ;;
    t2 <- tri_required ;;
    loss_density <- lift (pydiv loss (tri_volume svc t2 simpl)) ;;
    s2 <- get ;;
    subtriangulation <- lift (match dict_get simplex_eqb (_subtriangulations s2) simpl with
                              | Some tr => Val tr
                              | None => Exn KeyError
                              end) ;;
    push_sublosses subtriangulation loss_density simpl toadd.

(** Lines 328-360 of [_tell_pending]: the pending point enters the
    sub-triangulations of the simplices that hold it. *)
Definition subdivide_for (point : Point) (simplex : option Simplex) : Act unit :=
  t <- tri ;;
  match t with
  | None => ret tt
  | Some _ =>
      simplex' <- match simplex with
                  | Some (i :: r) => ret (i :: r)
                  | _ => t1 <- tri_required ;; ret (locate_point svc t1 point)
                  end ;;
      match simplex' with
      | [] => ret tt
      | _ :: _ =>
          t2 <- tri_required ;;
          simplices_ <- lift (collect (vertex_to_simplices svc t2) simplex') ;;
          let neighbours := set_union_all simplices_ in
          for_each neighbours (tell_pending_in point)
      end
  end.

(** [_tell_pending(point, simplex=None)] *)
Definition _tell_pending (point : Point) (simplex : option Simplex) : Act unit :=
  modify (fun s => set_pending (set_add point_eqb (_pending s) point) s) ;;;
  subdivide_for point simplex.

(** The pending points of the sub-triangulations of the deleted simplices
    (first loop of [update_losses]). *)
Fixpoint drop_deleted (to_delete : list Simplex) (unbound : list Point)
  : Act (list Point) :=
  match to_delete with
  | [] => ret unbound
  | simplex :: rest =>
      s <- get ;;
      let (_, losses') := dict_pop simplex_eqb (_losses s) simplex in
      let (subtri, subs') := dict_pop simplex_eqb (_subtriangulations s) simplex in
      modify (fun s => set_subtriangulations subs' (set_losses losses' s)) ;;;
      drop_deleted rest
        (match subtri with
         | Some st => set_update point_eqb unbound (vertices svc st)
         | None => unbound
         end)
  end.

(** Re-homing one orphaned pending point into an added simplex. *)
Definition rehome (simplex : Simplex) (p : Point) : Act unit :=
  t <- tri_required ;;
  if negb (tri_point_in_simplex svc t p simplex) then ret tt
  else
    s <- get ;;
    (if dict_mem simplex_eqb (_subtriangulations s) simplex then ret tt
     else
       t1 <- tri_required ;;
       let vertices' := get_vertices svc t1 simplex in
       tr <- lift (Triangulation svc vertices') ;;
       modify (fun s => set_subtriangulations
                          (dict_set simplex_eqb (_subtriangulations s) simplex tr) s)) ;;;
    s1 <- get ;;
    tr <- lift (match dict_get simplex_eqb (_subtriangulations s1) simplex with
                | Some tr => Val tr
                | None => Exn KeyError
                end) ;;
    r <- lift (add_point svc tr p None None) ;;
    modify (fun s =>
      set_pending_to_simplex
        (dict_set point_eqb (_pending_to_simplex s) p simplex)
        (set_subtriangulations
           (dict_set simplex_eqb (_subtriangulations s) simplex (fst r)) s)).

(** The body of the loop over [to_add] in [update_losses]. *)
Definition add_simplex (unbound : list Point) (simplex : Simplex) : Act unit :=
  t <- tri_required ;;
  let vertices_ := get_vertices svc t simplex in
  s <- get ;;
  values <- lift (collect (fun v => match dict_get point_eqb (data s) v with
                                    | Some y => Val y
                                    | None => Exn KeyError
                                    end) vertices_) ;;
  loss <- lift (loss_per_simplex vertices_ values) ;;
  modify (fun s => set_losses (dict_set simplex_eqb (_losses s) simplex loss) s) ;;;
  for_each unbound (rehome simplex) ;;;
  s1 <- get ;;
  match dict_get simplex_eqb (_subtriangulations s1) simplex with
  | None => push_loss (mk_entry (- loss)%Q simplex None)
  | Some subtriangulation =>
      t1 <- tri_required ;;
      loss_density <- lift (pydiv loss (tri_volume svc t1 simplex)) ;;
      push_sublosses subtriangulation loss_density simplex
                     (simplices svc subtriangulation)
  end.

(** [update_losses(to_delete, to_add)] *)
Definition update_losses (to_delete to_add : list Simplex) : Act unit :=
  unbound <- drop_deleted to_delete [] ;;
  s <- get ;;
  let unbound' := filter (fun p => negb (in_data s p)) unbound in
  for_each to_add (add_simplex unbound').

(** Lines 268-275 of [tell]: the new sample enters the triangulation. *)
Definition tell_triangulate (point : Point) : Act unit :=
  t <- tri ;;
  match t with
  | None => ret tt
  | Some _ =>
      s1 <- get ;;
      let hint := dict_get point_eqb (_pending_to_simplex s1) point in
      simplex <- match hint with
                 | None => ret None
                 | Some sx =>
                     ex <- _simplex_exists sx ;;
                     ret (if ex then Some sx else None)
                 end ;;
      transform <- get_local_transform_matrix point ;;
      s2 <- get ;;
      match _tri s2 with
      | None => raise AttributeError
      | Some t' =>
          r <- lift (add_point svc t' point simplex (Some transform)) ;;
          modify (set_tri (Some (fst r))) ;;;
          update_losses (fst (snd r)) (snd (snd r))
      end
  end.

(** Lines 261-266 of [tell]: the point leaves the pending set, enters the
    spatial index and the sample data.  [np.dot] rejects a point whose
    length is not that of the scale matrix. *)
Definition tell_store (point : Point) (y : value) : Act unit :=
  modify (fun s => set_pending (set_discard point_eqb (_pending s) point) s) ;;;
  s <- get ;;
  (if length point =? length (_scale_matrix s) then ret tt else raise ValueError) ;;;
  let scaled_point := mat_vec (_scale_matrix s) point in
  modify (fun s => set_point_tree (_point_tree s ++ [(npoints s, scaled_point)]) s) ;;;
  modify (fun s => set_data (dict_set point_eqb (data s) point y) s).

(** [tell(point, value)]; [None] as value marks the point pending. *)
Definition tell (point : Point) (v : option value) : Act unit :=
  print (PrintedPoint point) ;;;
  s <- get ;;
  if in_data s point then ret tt
  else match v with
       | None => _tell_pending point None
       | Some y => tell_store point y ;;; tell_triangulate point
       end.

(** property [_bounds_available] *)
Definition _bounds_available (s : LearnerND) : bool :=
  existsb (fun p => negb (in_pending s p) && negb (in_data s p)) (_bounds_points s).

(** [_ask_bound_point()] *)
Definition _ask_bound_point : Act (Point * priority) :=
  s <- get ;;
  let bounds_to_do :=
    filter (fun p => negb (in_data s p) && negb (in_pending s p)) (_bounds_points s) in
  match bounds_to_do with
  | [] => raise IndexError
  | new_point :: _ =>
      _tell_pending new_point None ;;;
      ret (new_point, Infinity)
  end.

(** [_ask_point_without_known_simplices()] *)
Definition _ask_point_without_known_simplices : Act (Point * priority) :=
  s <- get ;;
  if _bounds_available s then raise AssertionError
  else
    let a := diff (bounds s) in
    let b := map fst (bounds s) in
    let r := map (fun i => random_stream nm (_random s + i)) (seq 0 (ndim s)) in
    modify (set_random (_random s + ndim s)) ;;;
    let p := map (fun rab => (fst (fst rab) * snd (fst rab) + snd rab)%Q)
                 (combine (combine r a) b) in
    _tell_pending p None ;;;
    ret (p, Infinity).

(** [_pop_highest_existing_simplex()]: pops until a live entry shows up.
    Every round removes one entry, so [fuel] rounds suffice for a heap of
    [fuel] entries; the round after the last one raises like [heappop] on
    the empty heap. *)
Fixpoint pop_loop (fuel : nat) : Act (Q * Simplex * option Simplex) :=
  s <- get ;;
  popped <- lift (heappop (_losses_combined s)) ;;
  modify (set_losses_combined (snd popped)) ;;;
  let '(mk_entry loss simplex subsimplex) := fst popped in
  let in_subs s := dict_mem simplex_eqb (_subtriangulations s) simplex in
  whole <- match subsimplex with
           | Some _ => ret false
           | None =>
               t <- tri_required ;;
               s1 <- get ;;
               ret (existsb (simplex_eqb simplex) (simplices svc t)
                    && negb (in_subs s1))
           end ;;
  if (whole : bool) then ret (Qabs loss, simplex, subsimplex)
  else
    s2 <- get ;;
    part <- match dict_get simplex_eqb (_subtriangulations s2) simplex with
            | None => ret false
            | Some st =>
                t <- tri_required ;;
                ret (existsb (simplex_eqb simplex) (simplices svc t)
                     && match subsimplex with
                        | Some c => existsb (simplex_eqb c) (simplices svc st)
                        | None => false
                        end)
            end ;;
    if (part : bool) then ret (Qabs loss, simplex, subsimplex)
    else match fuel with
         | O => raise IndexError
         | S fuel' => pop_loop fuel'
         end.

Definition _pop_highest_existing_simplex : Act (Q * Simplex * option Simplex) :=
  s <- get ;;
  pop_loop (length (_losses_combined s)).

(** [_ask_best_point()] *)
Definition _ask_best_point : Act (Point * priority) :=
  s <- get ;;
  (if _bounds_available s then raise AssertionError else ret tt) ;;;
  t <- tri ;;
  (match t with None => raise AssertionError | Some _ => ret tt end) ;;;
  popped <- _pop_highest_existing_simplex ;;
  let '(loss, simplex, subsimplex) := popped in
  pts <- match subsimplex with
         | None => t1 <- tri_required ;; ret (get_vertices svc t1 simplex)
         | Some c =>
             s1 <- get ;;
             match dict_get simplex_eqb (_subtriangulations s1) simplex with
             | None => raise KeyError
             | Some subtri => ret (get_vertices svc subtri c)
             end
         end ;;
  s2 <- get ;;
  point_new <- lift (choose_point_in_simplex kernel pts (Some (_scale_matrix s2))) ;;
  modify (fun s => set_pending_to_simplex
                     (dict_set point_eqb (_pending_to_simplex s) point_new simplex) s) ;;;
  _tell_pending point_new (Some simplex) ;;;
  ret (point_new, Finite loss).

(** [_ask()] *)
Definition _ask : Act (Point * priority) :=
  s <- get ;;
  if _bounds_available s then _ask_bound_point
  else
    t <- tri ;;
    match t with
    | None => _ask_point_without_known_simplices
    | Some _ => _ask_best_point
    end.

Fixpoint ask_loop (n : nat) : Act (list (Point * priority)) :=
  match n with
  | O => ret []
  | S n' =>
      x <- _ask ;;
      xs <- ask_loop n' ;;
      ret (x :: xs)
  end.

(** [ask(n)]: unpacking the empty [zip] of [ask(0)] fails. *)
Definition ask (n : nat) : Act (list Point * list priority) :=
  pairs <- ask_loop n ;;
  match pairs with
  | [] => raise ValueError
  | _ => ret (map fst pairs, map snd pairs)
  end.

(** [losses()] *)
Definition losses : Act (list (Simplex * Q)) :=
  t <- tri ;;
  match t with
  | None => ret []
  | Some _ => s <- get ;; ret (_losses s)
  end.

Definition max_list (x : Q) (l : list Q) : Q :=
  fold_left (fun m y => if Qltb m y then y else m) l x.

(** [loss()] *)
Definition loss : Act priority :=
  ls <- losses ;;
  match map snd ls with
  | [] => ret Infinity
  | x :: r => ret (Finite (max_list x r))
  end.

(** [remove_unfinished()] *)
Definition remove_unfinished : Act unit :=
  modify (fun s => set_pending_to_simplex []
                     (set_subtriangulations [] (set_pending [] s))).

(** ** The driver's view: sequences of calls *)

Inductive call : Type :=
| Tell (p : Point) (v : option value)
| Ask (n : nat)
| Loss
| RemoveUnfinished.

Inductive answer : Type :=
| Done
| Asked (xs : list Point) (priorities : list priority)
| LossIs (l : priority).

Definition perform (c : call) : Act answer :=
  match c with
  | Tell p v => tell p v ;;; ret Done
  | Ask n => r <- ask n ;; ret (Asked (fst r) (snd r))
  | Loss => l <- loss ;; ret (LossIs l)
  | RemoveUnfinished => remove_unfinished ;;; ret Done
  end.

(** The learner object survives an exception: the next call sees the
    state the failed call left behind. *)
Fixpoint run (calls : list call) (s : LearnerND) : list (outcome answer) * LearnerND :=
  match calls with
  | [] => ([], s)
  | c :: rest =>
      let (a, s') := perform c s in
      let (answers, s'') := run rest s' in
      (a :: answers, s'')
  end.

Definition reachable (s : LearnerND) : Prop :=
  exists bnds anisotropic s0 calls,
    init bnds anisotropic = Val s0 /\ s = snd (run calls s0).

(** An action never leaves the relation [R] between the state before and
    the state after, whether it returns or raises. *)
Definition respects (R : LearnerND -> LearnerND -> Prop) {A} (m : Act A) : Prop :=
  forall s, R s (snd (m s)).

End Learner.

(** ** Concrete collaborators

    [triangulation.py] is consumed through its interface above.  The
    instances below give the collaborators a body so that the engine can
    be run on explicit inputs. *)

Module Geometry.

(** Modelled from the spec: the geometry kernel's [circumsphere(vertices)]
    (the body of [triangulation.circumsphere] is not part of the module
    under study).  The centre [c] is equidistant from all vertices:
    [2 (v_i - v_0) . c = |v_i|^2 - |v_0|^2]. *)
Definition circumsphere (simplex : list Point) : outcome Point :=
  match simplex with
  | [] => Exn IndexError
  | v0 :: rest =>
      solve (map (fun v => vscale 2%Q (vsub v v0)) rest)
            (map (fun v => (vdot v v - vdot v0 v0)%Q) rest)
  end.

Fixpoint transpose (n : nat) (m : Matrix) : Matrix :=
  match n with
  | O => []
  | S n' => map (fun r => hd 0%Q r) m :: transpose n' (map (@tl Q) m)
  end.

(** Modelled from the spec: the geometry kernel's point-in-simplex test
    (the body of [triangulation.point_in_simplex] is not part of the module
    under study): the barycentric coordinates of the point are
    non-negative and sum to at most one. *)
Definition point_in_simplex (point : Point) (simplex : list Point) : outcome bool :=
  match simplex with
  | [] => Exn IndexError
  | x0 :: rest =>
      let vectors := map (fun v => vsub v x0) rest in
      match solve (transpose (length point) vectors) (vsub point x0) with
      | Exn e => Exn e
      | Val alpha =>
          Val (forallb (fun a => Qle_bool 0%Q a) alpha
               && Qle_bool (fold_right Qplus 0%Q alpha) 1%Q)
      end
  end.

(** The embedding-volume helper is only reached through [default_loss];
    the runs below pass [uniform_loss] at construction. *)
Definition kernel : Kernel :=
  Build_Kernel circumsphere point_in_simplex (fun _ => Exn ValueError).

End Geometry.

Module Line.

(** Modelled from the spec: the Triangulation collaborator of section 6
    ([insert], [locate], [vertices_of], [volume], [vertex_to_simplices],
    [point_in_simplex]), for points on a line.  A simplex is the pair of
    indices of the end points of an interval; inserting a point splits the
    interval that holds it, or extends the hull to the new point. *)
Record t : Type := mk {
  verts : list Point;
  simps : list Simplex
}.

Definition coord (tr : t) (i : nat) : Q := hd 0%Q (nth i (verts tr) []).
Definition xof (p : Point) : Q := hd 0%Q p.

Definition contains (tr : t) (p : Point) (s : Simplex) : bool :=
  match s with
  | [i; j] =>
      let a := coord tr i in
      let b := coord tr j in
      (Qle_bool a (xof p) && Qle_bool (xof p) b)
      || (Qle_bool b (xof p) && Qle_bool (xof p) a)
  | _ => false
  end.

Definition locate_point (tr : t) (p : Point) : Simplex :=
  match filter (contains tr p) (simps tr) with
  | s :: _ => s
  | [] => []
  end.

(** The index of the hull vertex on the side of [p]. *)
Definition hull_vertex (tr : t) (p : Point) : nat :=
  fold_left (fun best i =>
               if Qle_bool (Qabs (coord tr best - xof p)) (Qabs (coord tr i - xof p))
               then best else i)
            (seq 0 (length (verts tr))) 0.

Definition add_point (tr : t) (p : Point) (hint : option Simplex)
           (transform : option Matrix)
  : outcome (t * (list Simplex * list Simplex)) :=
  if existsb (point_eqb p) (verts tr) then Exn ValueError
  else
    let idx := length (verts tr) in
    let located := match hint with
                   | Some s => if contains tr p s then s else []
                   | None => locate_point tr p
                   end in
    match hint, located with
    | Some _, [] => Exn ValueError
    | _, [] =>
        let k := hull_vertex tr p in
        Val (mk (verts tr ++ [p]) (simps tr ++ [[k; idx]]), ([], [[k; idx]]))
    | _, s =>
        let added := map (fun i => [i; idx]) s in
        Val (mk (verts tr ++ [p])
                (filter (fun c => negb (simplex_eqb c s)) (simps tr) ++ added),
             ([s], added))
    end.

Fixpoint add_all (tr : t) (ps : list Point) : outcome t :=
  match ps with
  | [] => Val tr
  | p :: rest =>
      match add_point tr p None None with
      | Exn e => Exn e
      | Val r => add_all (fst r) rest
      end
  end.

Definition Triangulation (coords : list Point) : outcome t :=
  match coords with
  | a :: b :: rest =>
      if point_eqb a b then Exn ValueError
      else add_all (mk [a; b] [[0; 1]]) rest
  | _ => Exn ValueError
  end.

Definition vertex_to_simplices (tr : t) (i : nat) : outcome (list Simplex) :=
  if i <? length (verts tr)
  then Val (filter (fun s => existsb (Nat.eqb i) s) (simps tr))
  else Exn IndexError.

Definition get_vertices (tr : t) (s : Simplex) : list Point :=
  map (fun i => nth i (verts tr) []) s.

Definition volume (tr : t) (s : Simplex) : Q :=
  match s with
  | [i; j] => Qabs (coord tr i - coord tr j)
  | _ => 0%Q
  end.

Definition service : Service :=
  @Build_Service t Triangulation add_point locate_point vertex_to_simplices
                 contains get_vertices volume simps verts.

(** The first numbers of [random.Random(1).random()], as the exact
    values of the doubles. *)
Definition seed1 : list Q :=
  [ (1210245519433057 # 9007199254740992)%Q;
    (954125565472927 # 1125899906842624)%Q;
    (6879470178836243 # 9007199254740992)%Q;
    (1148728769273815 # 4503599627370496)%Q ].

(** The library numerics on a line: the rank of a column of differences
    is one as soon as one of them is not zero, and two distinct points
    span the only simplex.  The anisotropic fit is not exercised
    ([anisotropic=False] in every run). *)
Definition numerics : Numerics :=
  {| matrix_rank := fun m =>
       if existsb (fun r => existsb (fun x => negb (Qeq_bool x 0%Q)) r) m
       then 1 else 0;
     delaunay_first_simplex := fun pts =>
       match pts with
       | _ :: _ :: _ => Val [0; 1]
       | _ => Exn ValueError
       end;
     random_stream := fun k => nth k seed1 0%Q;
     nearest := fun _ _ _ => [];
     gradient_transform := fun _ _ _ _ => None |}.

End Line.

(** ** Sessions on a line

    A learner over an interval, built on the line triangulation, the
    exact geometry kernel and the volume loss [uniform_loss]. *)

Module Scenario.

Definition L : Type := LearnerND Line.service.

(** Construct the learner, then issue the calls one after the other. *)
Definition session (bnds : list (Q * Q)) (calls : list call)
  : outcome (list (outcome answer) * L) :=
  match init Line.service bnds false with
  | Exn e => Exn e
  | Val s0 => Val (run Line.numerics Geometry.kernel uniform_loss calls s0)
  end.

Definition sample (x y : Q) : call := Tell [x] (Some (Scalar y)).
Definition request (x : Q) : call := Tell [x] None.

(** The learner a session ends with. *)
Definition final (bnds : list (Q * Q)) (calls : list call) : L :=
  match session bnds calls with
  | Val (_, s) => s
  | Exn _ => mkLearner Line.service 0 None [] [] [] [] None [] [] [] [] 0 [] false [] []
  end.

(** The first number of [random.Random(1)], 0.13436424411240122. *)
Definition r0 : Q := (1210245519433057 # 9007199254740992)%Q.

(** The learners of the sessions studied below, evaluated. *)
Definition told_0 : L :=
  Eval vm_compute in final [(0, 4)%Q] [sample 0 0].
Definition told_012 : L :=
  Eval vm_compute in final [(0, 4)%Q] [sample 0 0; sample 1 0; sample 2 0].
Definition told_012_asked : L :=
  Eval vm_compute in final [(0, 4)%Q] [sample 0 0; sample 1 0; sample 2 0; Ask 1].
Definition corners_pending : L :=
  Eval vm_compute in final [(0, 1)%Q] [Ask 2; request r0].
Definition corners_pending_asked : L :=
  Eval vm_compute in final [(0, 1)%Q] [Ask 2; request r0; Ask 1].
Definition first_asked : L :=
  Eval vm_compute in final [(0, 1)%Q] [Ask 1].
(** A learner whose triangulation holds a flat simplex: both end points
    of the simplex (0, 1) sit at 0, its ledger loss is 0 and a pending
    point already opened its sub-triangulation. *)
Definition flat : L :=
  @set_subtriangulations Line.service
    [([0; 1], Line.mk [[1%Q]; [2%Q]] [[0; 1]])]
    (@set_losses Line.service [([0; 1], 0%Q)]
       (@set_tri Line.service (Some (Line.mk [[0%Q]; [0%Q]] [[0; 1]])) told_0)).

Definition told_04 : L :=
  Eval vm_compute in final [(0, 4)%Q] [sample 0 0; sample 4 0].
Definition told_042 : L :=
  Eval vm_compute in final [(0, 4)%Q] [sample 0 0; sample 4 0; sample 2 0].
Definition told_042_pending_1 : L :=
  Eval vm_compute in snd (tell_pending_in Line.numerics [1%Q] [0; 2] told_042).
(** The queue of [told_042_pending_1] still begins with the whole-simplex
    entry of (0, 2), stale since the pending point 1 split it; a pop goes
    past it. *)
Definition popped_pending_1 : L :=
  Eval vm_compute in
    snd (_pop_highest_existing_simplex Line.numerics told_042_pending_1).

(** Two points are asked, 1 and 3, and resolved in request order and in
    reverse order. *)
Definition asked_two : list call :=
  [sample 0 0; sample 4 0; sample 2 0; Ask 2].
Definition two_pending : L :=
  Eval vm_compute in final [(0, 4)%Q] asked_two.
Definition in_order : L :=
  Eval vm_compute in final [(0, 4)%Q] (asked_two ++ [sample 1 0; sample 3 0]).
Definition reversed : L :=
  Eval vm_compute in final [(0, 4)%Q] (asked_two ++ [sample 3 0; sample 1 0]).

(** A learner over the unit square with two samples, on a diagonal, and
    the two other corners pending. *)
Definition diagonal : L :=
  Eval vm_compute in
    final [(0, 1)%Q; (0, 1)%Q]
      [Tell [0%Q; 0%Q] (Some (Scalar 0)); Tell [1%Q; 1%Q] (Some (Scalar 0));
       Ask 2].

(** A loss function that finds nothing to refine, and the learner of
    [told_04] after the sample at 2 under it: both simplices have loss 0. *)
Definition zero_loss (simplex : list Point) (ys : list value) : outcome Q :=
  Val 0%Q.
Definition told_042_zero : L :=
  Eval vm_compute in
    snd (run Line.numerics Geometry.kernel zero_loss [sample 2 0] told_04).

Definition told_mixed : L :=
  Eval vm_compute in
    final [(0, 4)%Q]
      [Tell [0%Q] (Some (Vector [1%Q]));
       Tell [1%Q] (Some (Vector [1%Q; 2%Q]));
       Tell [2%Q] (Some (Vector [1%Q; 2%Q; 3%Q]))].

End Scenario.

(** ** A sheared triangle

    Inputs for [choose_point_in_simplex]: a triangle whose image under the
    shear is acute, a needle, and the shear itself, which is invertible
    and not symmetric. *)

Module Shear.

Definition triangle : list Point := [[0; 0]; [2; -2]; [1; 1]]%Q.
Definition needle : list Point := [[0; 0]; [4; 0]; [1; 1]]%Q.
Definition shear : Matrix := [[1; 1]; [0; 1]]%Q.
Definition scale : Matrix := [[1 # 2; 0]; [0; 1 # 4]]%Q.

End Shear.

(** ** Vocabulary of the statements *)

(** The corners that are neither sampled nor pending, in the order of
    [_bounds_points] (the list [bounds_to_do] of [_ask_bound_point]). *)
Definition bounds_to_do {svc} (s : LearnerND svc) : list Point :=
  filter (fun p => negb (in_data s p) && negb (in_pending s p)) (_bounds_points s).

(** The state after [self._pending.add(p)]. *)
Definition mark_pending {svc} (p : Point) (s : LearnerND svc) : LearnerND svc :=
  set_pending (set_add point_eqb (_pending s) p) s.

(** The point lies outside every simplex: there is no triangulation and
    fewer than two samples to build one from, or point location finds
    nothing. *)
Definition outside_triangulation {svc} (s : LearnerND svc) (p : Point) : Prop :=
  match _tri s with
  | Some t => locate_point svc t p = []
  | None => length (data s) < 2
  end.

(** Pairwise different points, for tuple equality. *)
Inductive Distinct : list Point -> Prop :=
| Distinct_nil : Distinct []
| Distinct_cons p l :
    (forall q, In q l -> point_eqb q p = false) -> Distinct l -> Distinct (p :: l).

(** Every pending point stays pending. *)
Definition pending_grows {svc} (s s' : LearnerND svc) : Prop :=
  forall q, in_pending s q = true -> in_pending s' q = true.

(** A triangulation exists only once two points were sampled. *)
Definition tri_needs_two {svc} (s : LearnerND svc) : Prop :=
  _tri s = None \/ 2 <= length (data s).

(** The value of [max(losses.values()) if losses else float('inf')]. *)
Definition ledger_max (ledger : list (Simplex * Q)) : priority :=
  match map snd ledger with
  | [] => Infinity
  | x :: r => Finite (max_list x r)
  end.

(** The dimensionality [vdim] reads off a stored value: [len(value)],
    or 1 when the value has no length. *)
Definition value_dim (v : value) : nat :=
  match v with
  | Vector ys => length ys
  | Scalar _ => 1
  end.

(** The point [r * a + b] of [_ask_point_without_known_simplices]: the
    next [ndim] numbers of the private generator, stretched to the bounds. *)
Definition random_point {svc} (nm : Numerics) (s : LearnerND svc) : Point :=
  map (fun rab => (fst (fst rab) * snd (fst rab) + snd rab)%Q)
      (combine (combine (map (fun i => random_stream nm (_random s + i))
                             (seq 0 (ndim s)))
                        (diff (bounds s)))
               (map fst (bounds s))).

(** No number was drawn from the private generator in between. *)
Definition same_draws {svc} (s s' : LearnerND svc) : Prop := _random s' = _random s.

(** The sum of a list of rationals. *)
Definition sum_Q (l : list Q) : Q := fold_right Qplus 0%Q l.

(** The triangulation, the loss ledger and the sub-triangulations are
    those of before. *)
Definition same_books {svc} (s s' : LearnerND svc) : Prop :=
  _tri s' = _tri s /\ _losses s' = _losses s
  /\ _subtriangulations s' = _subtriangulations s.

(** Once a triangulation exists: the triangulation, the loss ledger and
    the heap are those of before. *)
Definition same_ledger {svc} (s s' : LearnerND svc) : Prop :=
  forall t, _tri s = Some t ->
    _tri s' = Some t /\ _losses s' = _losses s
    /\ _losses_combined s' = _losses_combined s.

(** No entry left the heap. *)
Definition heap_grows {svc} (s s' : LearnerND svc) : Prop :=
  forall y, In y (_losses_combined s) -> In y (_losses_combined s').

(** Telling the values of a batch of points, in the order of the list. *)
Definition tells (batch : list (Point * value)) : list call :=
  map (fun pv => Tell (fst pv) (Some (snd pv))) batch.

(** The pending set is the one of before. *)
Definition same_pending {svc} (s s' : LearnerND svc) : Prop := _pending s' = _pending s.

(** The loss ledger, the heap and the sub-triangulations are those of
    before. *)
Definition same_queue {svc} (s s' : LearnerND svc) : Prop :=
  _losses s' = _losses s /\ _losses_combined s' = _losses_combined s
  /\ _subtriangulations s' = _subtriangulations s.

(** The samples of before are still there, with their values. *)
Definition keeps_samples {svc} (s s' : LearnerND svc) : Prop :=
  forall q v, dict_get point_eqb (data s) q = Some v ->
              dict_get point_eqb (data s') q = Some v.

(** The sample data are those of before. *)
Definition same_data {svc} (s s' : LearnerND svc) : Prop := data s' = data s.

(** An entry popped for refinement is live: its home simplex is in the
    triangulation, and it is either the whole simplex, without
    sub-triangulation, or a cell of the home's sub-triangulation. *)
Definition live_entry {svc} (s : LearnerND svc) (t : tri_t svc)
           (simplex : Simplex) (subsimplex : option Simplex) : Prop :=
  existsb (simplex_eqb simplex) (simplices svc t) = true
  /\ match subsimplex with
     | None => dict_mem simplex_eqb (_subtriangulations s) simplex = false
     | Some c =>
         exists st,
           dict_get simplex_eqb (_subtriangulations s) simplex = Some st
           /\ existsb (simplex_eqb c) (simplices svc st) = true
     end.

(** The corners are those of before and no sample was lost. *)
Definition corners_kept {svc} (s s' : LearnerND svc) : Prop :=
  _bounds_points s' = _bounds_points s
  /\ forall q, in_data s q = true -> in_data s' q = true.

(** The samples do not span the domain: the differences to the first
    sample have a rank below the dimension ([find_initial_simplex] finds
    nothing). *)
Definition coplanar {svc} (nm : Numerics) (s : LearnerND svc) : Prop :=
  match points s with
  | [] => False
  | origin :: rest =>
      matrix_rank nm (map (fun p => vsub p origin) rest) < ndim s
  end.

(** Every entry of the queue stands for a cell of a sub-triangulation. *)
Definition is_cell (e : entry) : bool :=
  match sub e with Some _ => true | None => false end.
Definition only_cells (h : heap) : bool := forallb is_cell h.

(** The learner after [remove_unfinished()]. *)
Definition forgotten {svc} (s : LearnerND svc) : LearnerND svc :=
  set_pending_to_simplex [] (set_subtriangulations [] (set_pending [] s)).

(** The shape [volume] and [orientation] expect: one point more than
    each point has coordinates, so that the matrix of differences is
    square. *)
Definition simplex_shape (simplex : list Point) : Prop :=
  Forall (fun p => S (length p) = length simplex) simplex.

(** The spatial index holds one entry per sample, filed under the
    numbers 0, 1, 2, ... in the order in which the samples arrived. *)
Definition tree_indexed {svc} (s : LearnerND svc) : Prop :=
  map fst (_point_tree s) = seq 0 (npoints s).

(** Neither the samples nor the spatial index changed. *)
Definition same_store {svc} (s s' : LearnerND svc) : Prop :=
  data s' = data s /\ _point_tree s' = _point_tree s.

(** * Facts *)

(** ** Frame reasoning: relations that every action respects *)

Section Frames.
Variable svc : Service.
Variable nm : Numerics.
Variable kernel : Kernel.
Variable loss_per_simplex : list Point -> list value -> outcome Q.

Abbreviation State := (LearnerND svc).

Variable R : State -> State -> Prop.
Hypothesis R_refl : forall s, R s s.
Hypothesis R_trans : forall s1 s2 s3, R s1 s2 -> R s2 s3 -> R s1 s3.

Lemma respects_ret A (a : A) : respects R (ret a).
Proof. intro s. apply R_refl. Qed.

Lemma respects_raise A (e : exn) : respects R (@raise State A e).
Proof. intro s. apply R_refl. Qed.

Lemma respects_lift A (o : outcome A) : respects R (lift o).
Proof. intro s. apply R_refl. Qed.

Lemma respects_get : respects R (@get State).
Proof. intro s. apply R_refl. Qed.

Lemma respects_bind A B (m : M State A) (k : A -> M State B) :
  respects R m -> (forall a, respects R (k a)) -> respects R (bind m k).
Proof.
  intros Hm Hk s. unfold bind. specialize (Hm s).
  destruct (m s) as [[a | e] s']; simpl in *.
  - eapply R_trans; [exact Hm | apply Hk].
  - exact Hm.
Qed.

Lemma respects_modify (f : State -> State) :
  (forall s, R s (f s)) -> respects R (modify f).
Proof. intros H s. apply H. Qed.

Lemma respects_for_each A (l : list A) (body : A -> M State unit) :
  (forall x, respects R (body x)) -> respects R (for_each l body).
Proof.
  intro H. induction l as [| x l IH]; simpl.
  - apply respects_ret.
  - apply respects_bind; [apply H | intros _; exact IH].
Qed.

(** The setters that [R] tolerates with any value. *)
Hypothesis R_vdim : forall v s, R s (set_vdim v s).
Hypothesis R_losses : forall v s, R s (set_losses v s).
Hypothesis R_pending_to_simplex : forall v s, R s (set_pending_to_simplex v s).
Hypothesis R_subtriangulations : forall v s, R s (set_subtriangulations v s).
Hypothesis R_random : forall v s, R s (set_random v s).
Hypothesis R_point_tree : forall v s, R s (set_point_tree v s).
Hypothesis R_losses_combined : forall v s, R s (set_losses_combined v s).
Hypothesis R_stdout : forall v s, R s (set_stdout v s).
(** A triangulation is only ever stored once two samples exist. *)
Hypothesis R_tri : forall t s,
  2 <= length (data s) \/ _tri s <> None -> R s (set_tri (Some t) s).

Ltac frame_step :=
  first
    [ apply respects_ret | apply respects_raise | apply respects_lift
    | apply respects_get
    | apply respects_bind; [| intros ?]
    | apply respects_for_each; intros ?
    | match goal with
      | |- respects _ (match ?x with _ => _ end) => destruct x eqn:?
      end ].

Ltac frame := repeat frame_step.

Lemma respects_tri_add_all to_add : respects R (tri_add_all to_add).
Proof.
  induction to_add as [| p rest IH]; simpl.
  - apply respects_ret.
  - intro s. unfold bind at 1. simpl.
    destruct (_tri s) as [t |] eqn:Ht.
    + revert s Ht.
      assert (H : forall s, _tri s = Some t ->
                R s (snd ((r <- lift (add_point svc t p None (Some (_scale_matrix s))) ;;
                           modify (set_tri (Some (fst r))) ;;; tri_add_all rest) s))).
      { intros s Ht. unfold bind, lift, modify.
        destruct (add_point svc t p None (Some (_scale_matrix s))) as [r | e]; simpl.
        - eapply R_trans; [apply (R_tri (fst r) s); right; congruence | apply IH].
        - apply R_refl. }
      exact H.
    + apply R_refl.
Qed.

Lemma respects_tri_setter : respects R (@tri svc nm).
Proof.
  intro s. unfold tri, bind at 1. simpl.
  destruct (_tri s) as [t |] eqn:Ht; [apply R_refl |].
  destruct (length (data s) <? 2) eqn:Hlen; [apply R_refl |].
  apply Nat.ltb_ge in Hlen.
  unfold bind, lift.
  destruct (find_initial_simplex nm (points s) (ndim s)) as [[initial |] | e];
    simpl; try apply R_refl.
  destruct (index_all (points s) initial) as [pts | e]; simpl; try apply R_refl.
  destruct (Triangulation svc pts) as [t0 | e]; simpl; try apply R_refl.
  eapply R_trans; [apply (R_tri t0 s); left; exact Hlen |].
  match goal with
  | |- R ?s1 (snd (match tri_add_all ?l ?s1 with _ => _ end)) =>
      pose proof (respects_tri_add_all l s1) as H;
      destruct (tri_add_all l s1) as [[[] | e] s2]; simpl in *; exact H
  end.
Qed.

(** What the frame lemmas need of an access to the [tri] property.  The
    lemma above derives it from the setter; a relation that only speaks
    of states with a triangulation gets it from the early return. *)
Hypothesis R_tri_access : respects R (@tri svc nm).

Lemma respects_tri_required : respects R (@tri_required svc nm).
Proof. unfold tri_required. apply respects_bind; [apply R_tri_access | intros a]. frame. Qed.

Lemma respects_print x : respects R (@print svc x).
Proof. unfold print. apply respects_modify. intro s. apply R_stdout. Qed.

Lemma respects_simplex_exists sx : respects R (@_simplex_exists svc nm sx).
Proof.
  unfold _simplex_exists. apply respects_bind; [apply respects_tri_required |].
  intros t. apply respects_ret.
Qed.

Lemma respects_get_local_transform_matrix p :
  respects R (@get_local_transform_matrix svc nm p).
Proof.
  unfold get_local_transform_matrix.
  apply respects_bind; [apply respects_get | intros s].
  apply respects_bind; [apply R_tri_access | intros t].
  destruct t; [| apply respects_ret].
  destruct (negb (anisotripic s)); [apply respects_ret |].
  apply respects_bind; [apply respects_get | intros s1].
  apply respects_bind; [apply respects_lift | intros pts].
  apply respects_bind; [apply respects_lift | intros values].
  destruct values as [| [y | ys] values]; try apply respects_raise.
  destruct (gradient_transform nm (ndim s1) (_scale_matrix s) pts (Scalar y :: values)).
  - apply respects_bind; [apply respects_print | intros _; apply respects_ret].
  - apply respects_ret.
Qed.

Lemma respects_push_loss item : respects R (@push_loss svc item).
Proof.
  unfold push_loss.
  apply respects_bind; [apply respects_get | intros s].
  apply respects_bind; [apply respects_lift | intros h].
  apply respects_modify. intro. apply R_losses_combined.
Qed.

Lemma respects_push_sublosses st d simpl cells :
  respects R (@push_sublosses svc st d simpl cells).
Proof.
  unfold push_sublosses. apply respects_for_each. intro c. apply respects_push_loss.
Qed.

Lemma respects_set_sub (f : State -> list (Simplex * tri_t svc)) :
  respects R (modify (fun s => set_subtriangulations (f s) s)).
Proof. apply respects_modify. intro. apply R_subtriangulations. Qed.

Lemma respects_tell_pending_in p simpl :
  respects R (@tell_pending_in svc nm p simpl).
Proof.
  unfold tell_pending_in.
  apply respects_bind; [apply respects_tri_required | intros t].
  destruct (negb (tri_point_in_simplex svc t p simpl)); [apply respects_ret |].
  apply respects_bind; [apply respects_get | intros s].
  apply respects_bind.
  - destruct (dict_get simplex_eqb (_subtriangulations s) simpl).
    + apply respects_bind; [apply respects_lift | intros r].
      apply respects_bind; [apply respects_set_sub | intros _; apply respects_ret].
    + apply respects_bind; [apply respects_tri_required | intros t1].
      apply respects_bind; [apply respects_lift | intros tr].
      apply respects_bind; [apply respects_set_sub | intros _].
      apply respects_bind; [apply respects_lift | intros c].
      apply respects_bind; [apply respects_lift | intros r].
      apply respects_bind; [apply respects_set_sub | intros _; apply respects_ret].
  - intros toadd.
    apply respects_bind; [apply respects_get | intros s1].
    apply respects_bind; [apply respects_lift | intros l].
    apply respects_bind; [apply respects_tri_required | intros t2].
    apply respects_bind; [apply respects_lift | intros d].
    apply respects_bind; [apply respects_get | intros s2].
    apply respects_bind; [apply respects_lift | intros st].
    apply respects_push_sublosses.
Qed.

Lemma respects_subdivide_for p simplex :
  respects R (@subdivide_for svc nm p simplex).
Proof.
  unfold subdivide_for.
  apply respects_bind; [apply R_tri_access | intros t].
  destruct t; [| apply respects_ret].
  apply respects_bind.
  - destruct simplex as [[| i r] |]; try apply respects_ret;
      (apply respects_bind; [apply respects_tri_required | intros t1; apply respects_ret]).
  - intros simplex'. destruct simplex'; [apply respects_ret |].
    apply respects_bind; [apply respects_tri_required | intros t2].
    apply respects_bind; [apply respects_lift | intros ss].
    apply respects_for_each. intro. apply respects_tell_pending_in.
Qed.

(** Marking a point pending. *)
Hypothesis R_pending_add : forall p s,
  R s (set_pending (set_add point_eqb (_pending s) p) s).

Lemma respects_tell_pending p simplex :
  respects R (@_tell_pending svc nm p simplex).
Proof.
  unfold _tell_pending.
  apply respects_bind; [apply respects_modify; intro; apply R_pending_add | intros _].
  apply respects_subdivide_for.
Qed.

Lemma respects_drop_deleted to_delete unbound :
  respects R (@drop_deleted svc to_delete unbound).
Proof.
  revert unbound. induction to_delete as [| simplex rest IH]; intro unbound; simpl.
  - apply respects_ret.
  - apply respects_bind; [apply respects_get | intros s].
    destruct (dict_pop simplex_eqb (_losses s) simplex) as [l losses'].
    destruct (dict_pop simplex_eqb (_subtriangulations s) simplex) as [subtri subs'].
    apply respects_bind; [| intros _; apply IH].
    apply respects_modify. intro s0.
    eapply R_trans; [apply R_losses | apply R_subtriangulations].
Qed.

Lemma respects_rehome simplex p : respects R (@rehome svc nm simplex p).
Proof.
  unfold rehome.
  apply respects_bind; [apply respects_tri_required | intros t].
  destruct (negb (tri_point_in_simplex svc t p simplex)); [apply respects_ret |].
  apply respects_bind; [apply respects_get | intros s].
  apply respects_bind.
  - destruct (dict_mem simplex_eqb (_subtriangulations s) simplex); [apply respects_ret |].
    apply respects_bind; [apply respects_tri_required | intros t1].
    apply respects_bind; [apply respects_lift | intros tr].
    apply respects_set_sub.
  - intros _.
    apply respects_bind; [apply respects_get | intros s1].
    apply respects_bind; [apply respects_lift | intros tr].
    apply respects_bind; [apply respects_lift | intros r].
    apply respects_modify. intro s0.
    eapply R_trans; [apply R_subtriangulations | apply R_pending_to_simplex].
Qed.

Lemma respects_add_simplex unbound simplex :
  respects R (@add_simplex svc nm loss_per_simplex unbound simplex).
Proof.
  unfold add_simplex.
  apply respects_bind; [apply respects_tri_required | intros t].
  apply respects_bind; [apply respects_get | intros s].
  apply respects_bind; [apply respects_lift | intros values].
  apply respects_bind; [apply respects_lift | intros l].
  apply respects_bind; [apply respects_modify; intro; apply R_losses | intros _].
  apply respects_bind; [apply respects_for_each; intro; apply respects_rehome | intros _].
  apply respects_bind; [apply respects_get | intros s1].
  destruct (dict_get simplex_eqb (_subtriangulations s1) simplex).
  - apply respects_bind; [apply respects_tri_required | intros t1].
    apply respects_bind; [apply respects_lift | intros d].
    apply respects_push_sublosses.
  - apply respects_push_loss.
Qed.

Lemma respects_update_losses to_delete to_add :
  respects R (@update_losses svc nm loss_per_simplex to_delete to_add).
Proof.
  unfold update_losses.
  apply respects_bind; [apply respects_drop_deleted | intros unbound].
  apply respects_bind; [apply respects_get | intros s].
  apply respects_for_each. intro. apply respects_add_simplex.
Qed.

Lemma respects_tell_triangulate p :
  respects R (@tell_triangulate svc nm loss_per_simplex p).
Proof.
  unfold tell_triangulate.
  apply respects_bind; [apply R_tri_access | intros t].
  destruct t; [| apply respects_ret].
  apply respects_bind; [apply respects_get | intros s1].
  apply respects_bind.
  - destruct (dict_get point_eqb (_pending_to_simplex s1) p); [| apply respects_ret].
    apply respects_bind; [apply respects_simplex_exists | intros ex; apply respects_ret].
  - intros simplex.
    apply respects_bind; [apply respects_get_local_transform_matrix | intros transform].
    intro s. unfold bind at 1. simpl.
    destruct (_tri s) as [t' |] eqn:Ht; [| apply R_refl].
    unfold bind, lift, modify.
    destruct (add_point svc t' p simplex (Some transform)) as [r | e]; simpl;
      [| apply R_refl].
    eapply R_trans; [apply (R_tri (fst r) s); right; congruence |].
    apply respects_update_losses.
Qed.

Lemma respects_ask_bound_point : respects R (@_ask_bound_point svc nm).
Proof.
  unfold _ask_bound_point.
  apply respects_bind; [apply respects_get | intros s].
  destruct (filter _ _); [apply respects_raise |].
  apply respects_bind; [apply respects_tell_pending | intros _; apply respects_ret].
Qed.

Lemma respects_ask_point_without_known_simplices :
  respects R (@_ask_point_without_known_simplices svc nm).
Proof.
  unfold _ask_point_without_known_simplices.
  apply respects_bind; [apply respects_get | intros s].
  destruct (_bounds_available s); [apply respects_raise |].
  apply respects_bind; [apply respects_modify; intro; apply R_random | intros _].
  apply respects_bind; [apply respects_tell_pending | intros _; apply respects_ret].
Qed.

Lemma respects_pop_loop fuel : respects R (@pop_loop svc nm fuel).
Proof.
  induction fuel as [| fuel IH];
    (simpl;
     apply respects_bind; [apply respects_get | intros s];
     apply respects_bind; [apply respects_lift | intros popped];
     apply respects_bind;
       [apply respects_modify; intro; apply R_losses_combined | intros _];
     destruct (fst popped) as [l simplex subsimplex];
     apply respects_bind;
       [ destruct subsimplex; [apply respects_ret |];
         apply respects_bind; [apply respects_tri_required | intros ?];
         apply respects_bind; [apply respects_get | intros s1; apply respects_ret]
       | intros whole ];
     destruct whole; [apply respects_ret |];
     apply respects_bind; [apply respects_get | intros s2];
     apply respects_bind;
       [ destruct (dict_get simplex_eqb (_subtriangulations s2) simplex);
         [ apply respects_bind; [apply respects_tri_required | intros ?; apply respects_ret]
         | apply respects_ret ]
       | intros part ];
     destruct part; [apply respects_ret |]).
  - apply respects_raise.
  - exact IH.
Qed.

Lemma respects_ask_best_point : respects R (@_ask_best_point svc nm kernel).
Proof.
  unfold _ask_best_point, _pop_highest_existing_simplex.
  apply respects_bind; [apply respects_get | intros s].
  apply respects_bind;
    [destruct (_bounds_available s); [apply respects_raise | apply respects_ret] | intros _].
  apply respects_bind; [apply R_tri_access | intros t].
  apply respects_bind;
    [destruct t; [apply respects_ret | apply respects_raise] | intros _].
  apply respects_bind;
    [apply respects_bind; [apply respects_get | intros s0; apply respects_pop_loop]
    | intros [[l simplex] subsimplex]].
  apply respects_bind.
  - destruct subsimplex.
    + apply respects_bind; [apply respects_get | intros s1].
      destruct (dict_get simplex_eqb (_subtriangulations s1) simplex);
        [apply respects_ret | apply respects_raise].
    + apply respects_bind; [apply respects_tri_required | intros t1; apply respects_ret].
  - intros pts.
    apply respects_bind; [apply respects_get | intros s2].
    apply respects_bind; [apply respects_lift | intros point_new].
    apply respects_bind;
      [apply respects_modify; intro; apply R_pending_to_simplex | intros _].
    apply respects_bind; [apply respects_tell_pending | intros _; apply respects_ret].
Qed.

Lemma respects_ask1 : respects R (@_ask svc nm kernel).
Proof.
  unfold _ask.
  apply respects_bind; [apply respects_get | intros s].
  destruct (_bounds_available s); [apply respects_ask_bound_point |].
  apply respects_bind; [apply R_tri_access | intros t].
  destruct t; [apply respects_ask_best_point |].
  apply respects_ask_point_without_known_simplices.
Qed.

Lemma respects_ask_loop n : respects R (@ask_loop svc nm kernel n).
Proof.
  induction n as [| n IH]; simpl; [apply respects_ret |].
  apply respects_bind; [apply respects_ask1 | intros x].
  apply respects_bind; [exact IH | intros xs; apply respects_ret].
Qed.

Lemma respects_ask n : respects R (@ask svc nm kernel n).
Proof.
  unfold ask. apply respects_bind; [apply respects_ask_loop | intros pairs].
  destruct pairs; [apply respects_raise | apply respects_ret].
Qed.

Lemma respects_losses : respects R (@losses svc nm).
Proof.
  unfold losses. apply respects_bind; [apply R_tri_access | intros t].
  destruct t; [| apply respects_ret].
  apply respects_bind; [apply respects_get | intros s; apply respects_ret].
Qed.

Lemma respects_loss : respects R (@loss svc nm).
Proof.
  unfold loss. apply respects_bind; [apply respects_losses | intros ls].
  destruct (map snd ls); apply respects_ret.
Qed.

(** Storing a sample, discarding a pending point, forgetting them all. *)
Hypothesis R_pending_discard : forall p s,
  R s (set_pending (set_discard point_eqb (_pending s) p) s).
Hypothesis R_data_set : forall p y s,
  R s (set_data (dict_set point_eqb (data s) p y) s).
Hypothesis R_pending_reset : forall s, R s (set_pending [] s).

Lemma respects_tell_store p y : respects R (@tell_store svc p y).
Proof.
  unfold tell_store.
  apply respects_bind; [apply respects_modify; intro; apply R_pending_discard | intros _].
  apply respects_bind; [apply respects_get | intros s].
  apply respects_bind;
    [destruct (length p =? length (_scale_matrix s));
     [apply respects_ret | apply respects_raise] | intros _].
  apply respects_bind; [apply respects_modify; intro; apply R_point_tree | intros _].
  apply respects_modify. intro. apply R_data_set.
Qed.

Lemma respects_tell p v : respects R (@tell svc nm loss_per_simplex p v).
Proof.
  unfold tell.
  apply respects_bind; [apply respects_print | intros _].
  apply respects_bind; [apply respects_get | intros s].
  destruct (in_data s p); [apply respects_ret |].
  destruct v as [y |]; [| apply respects_tell_pending].
  apply respects_bind; [apply respects_tell_store | intros _].
  apply respects_tell_triangulate.
Qed.

Lemma respects_remove_unfinished : respects R (@remove_unfinished svc).
Proof.
  unfold remove_unfinished. apply respects_modify. intro s.
  eapply R_trans; [apply R_pending_reset |].
  eapply R_trans; [apply R_subtriangulations | apply R_pending_to_simplex].
Qed.

Lemma respects_perform c : respects R (@perform svc nm kernel loss_per_simplex c).
Proof.
  destruct c as [p v | n | |]; simpl.
  - apply respects_bind; [apply respects_tell | intros _; apply respects_ret].
  - apply respects_bind; [apply respects_ask | intros r; apply respects_ret].
  - apply respects_bind; [apply respects_loss | intros l; apply respects_ret].
  - apply respects_bind; [apply respects_remove_unfinished | intros _; apply respects_ret].
Qed.

Lemma respects_run calls s :
  R s (snd (@run svc nm kernel loss_per_simplex calls s)).
Proof.
  revert s. induction calls as [| c rest IH]; intro s; simpl; [apply R_refl |].
  pose proof (respects_perform c s) as Hc.
  destruct (perform nm kernel loss_per_simplex c s) as [a s1]. simpl in Hc.
  specialize (IH s1).
  destruct (run nm kernel loss_per_simplex rest s1) as [answers s2]. simpl in *.
  eapply R_trans; eassumption.
Qed.

End Frames.

(** ** Points as dictionary keys *)

Lemma Qeq_bool_sym x y : Qeq_bool x y = Qeq_bool y x.
Proof.
  destruct (Qeq_bool x y) eqn:H1, (Qeq_bool y x) eqn:H2; try reflexivity.
  - apply Qeq_bool_iff in H1. symmetry in H1. apply Qeq_bool_iff in H1. congruence.
  - apply Qeq_bool_iff in H2. symmetry in H2. apply Qeq_bool_iff in H2. congruence.
Qed.

Lemma point_eqb_refl p : point_eqb p p = true.
Proof.
  induction p as [| x p IH]; simpl; [reflexivity |].
  rewrite IH, andb_true_r. apply Qeq_bool_iff. reflexivity.
Qed.

Lemma point_eqb_sym p q : point_eqb p q = point_eqb q p.
Proof.
  revert q. induction p as [| x p IH]; intros [| y q]; simpl; try reflexivity.
  rewrite IH, Qeq_bool_sym. reflexivity.
Qed.

Lemma point_eqb_trans p q r :
  point_eqb p q = true -> point_eqb q r = true -> point_eqb p r = true.
Proof.
  revert q r. induction p as [| x p IH]; intros [| y q] [| z r]; simpl;
    try discriminate; auto.
  intros H1 H2. apply andb_true_iff in H1, H2. destruct H1 as [H1 H1'], H2 as [H2 H2'].
  apply andb_true_iff. split; [| eapply IH; eassumption].
  apply Qeq_bool_iff in H1, H2. apply Qeq_bool_iff. rewrite H1. exact H2.
Qed.

Lemma set_mem_eqb l p q :
  point_eqb p q = true -> set_mem point_eqb l p = set_mem point_eqb l q.
Proof.
  intro H. induction l as [| k l IH]; simpl; [reflexivity |].
  rewrite IH. f_equal.
  destruct (point_eqb p k) eqn:Hp, (point_eqb q k) eqn:Hq; try reflexivity.
  - rewrite point_eqb_sym in H. rewrite (point_eqb_trans _ _ _ H Hp) in Hq. discriminate.
  - rewrite (point_eqb_trans _ _ _ H Hq) in Hp. discriminate.
Qed.

Lemma set_mem_app l1 l2 p :
  set_mem point_eqb (l1 ++ l2) p = set_mem point_eqb l1 p || set_mem point_eqb l2 p.
Proof.
  induction l1 as [| k l1 IH]; simpl; [reflexivity |].
  rewrite IH, orb_assoc. reflexivity.
Qed.

Lemma set_mem_add_same l p : set_mem point_eqb (set_add point_eqb l p) p = true.
Proof.
  unfold set_add. destruct (set_mem point_eqb l p) eqn:H; [exact H |].
  rewrite set_mem_app. simpl. rewrite point_eqb_refl, orb_true_r. reflexivity.
Qed.

Lemma set_mem_add_mono l p q :
  set_mem point_eqb l q = true -> set_mem point_eqb (set_add point_eqb l p) q = true.
Proof.
  intro H. unfold set_add. destruct (set_mem point_eqb l p); [exact H |].
  rewrite set_mem_app, H. reflexivity.
Qed.

Lemma dict_get_set_same V (d : list (Point * V)) p v :
  dict_get point_eqb (dict_set point_eqb d p v) p = Some v.
Proof.
  induction d as [| [k w] d IH]; simpl.
  - rewrite point_eqb_refl. reflexivity.
  - destruct (point_eqb p k) eqn:H; simpl; rewrite H; [reflexivity | exact IH].
Qed.

Lemma dict_get_set_other V (d : list (Point * V)) p q v :
  point_eqb q p = false ->
  dict_get point_eqb (dict_set point_eqb d p v) q = dict_get point_eqb d q.
Proof.
  intro H. induction d as [| [k w] d IH]; simpl.
  - rewrite H. reflexivity.
  - destruct (point_eqb p k) eqn:Hp; simpl.
    + destruct (point_eqb q k) eqn:Hq; [| reflexivity].
      rewrite point_eqb_sym in Hp.
      rewrite (point_eqb_trans _ _ _ Hq Hp) in H. discriminate.
    + rewrite IH. reflexivity.
Qed.

(** ** Re-telling a sampled point *)

Section Idempotence.
Variable svc : Service.
Variable nm : Numerics.
Variable loss_per_simplex : list Point -> list value -> outcome Q.

Lemma tell_known (s : LearnerND svc) p v :
  in_data s p = true ->
  tell nm loss_per_simplex p v s
  = (Val tt, set_stdout (stdout s ++ [PrintedPoint p]) s).
Proof.
  intro H. unfold tell, bind, print, modify, get. simpl.
  unfold in_data in *. simpl. rewrite H. reflexivity.
Qed.

(** C2.  Telling a point that is already a key of the sample data returns
    at once: the sample data, the pending set, the triangulation, the loss
    ledger, the priority queue, the pending-to-home map, the
    sub-triangulations and the spatial index are those of the state
    before the call. *)
Theorem tell_sampled_point_is_noop (s : LearnerND svc) p v :
  in_data s p = true ->
  exists s',
    tell nm loss_per_simplex p v s = (Val tt, s')
    /\ data s' = data s
    /\ _pending s' = _pending s
    /\ _tri s' = _tri s
    /\ _losses s' = _losses s
    /\ _losses_combined s' = _losses_combined s
    /\ _pending_to_simplex s' = _pending_to_simplex s
    /\ _subtriangulations s' = _subtriangulations s
    /\ _point_tree s' = _point_tree s
    /\ _vdim s' = _vdim s
    /\ _random s' = _random s.
Proof.
  intro H. eexists. split; [apply tell_known; exact H |].
  simpl. repeat split; reflexivity.
Qed.

End Idempotence.

(** ** The corners of the bounding box come first *)

Section Corners.
Variable svc : Service.
Variable nm : Numerics.
Variable kernel : Kernel.

Lemma tri_built (s : LearnerND svc) t :
  _tri s = Some t -> tri nm s = (Val (Some t), s).
Proof. intro H. unfold tri, bind, get. simpl. rewrite H. reflexivity. Qed.

Lemma tri_too_few (s : LearnerND svc) :
  _tri s = None -> length (data s) < 2 -> tri nm s = (Val None, s).
Proof.
  intros H Hlen. unfold tri, bind, get. simpl. rewrite H.
  apply Nat.ltb_lt in Hlen. rewrite Hlen. reflexivity.
Qed.

Lemma tri_required_built (s : LearnerND svc) t :
  _tri s = Some t -> tri_required nm s = (Val t, s).
Proof. intro H. unfold tri_required, bind. rewrite (tri_built s H). reflexivity. Qed.

Lemma tell_pending_outside (s : LearnerND svc) p :
  outside_triangulation s p ->
  _tell_pending nm p None s = (Val tt, mark_pending p s).
Proof.
  unfold outside_triangulation. intro H.
  unfold _tell_pending. unfold bind at 1. unfold modify at 1.
  fold (mark_pending p s). unfold subdivide_for.
  destruct (_tri s) as [t |] eqn:Ht.
  - assert (Ht' : _tri (mark_pending p s) = Some t) by exact Ht.
    unfold bind at 1. rewrite (tri_built _ Ht').
    unfold bind at 1. unfold bind at 1.
    rewrite (tri_required_built _ Ht'). unfold ret at 1.
    rewrite H. reflexivity.
  - assert (Ht' : _tri (mark_pending p s) = None) by exact Ht.
    unfold bind at 1. rewrite (tri_too_few _ Ht' H). reflexivity.
Qed.

Lemma bounds_available_to_do (s : LearnerND svc) :
  _bounds_available s = true ->
  exists p rest, bounds_to_do s = p :: rest.
Proof.
  unfold _bounds_available, bounds_to_do. intro H.
  apply existsb_exists in H. destruct H as [p [Hin Hp]].
  destruct (filter _ _) as [| q rest] eqn:Hf; [| eauto].
  exfalso.
  assert (Hin' : In p (filter (fun p => negb (in_data s p) && negb (in_pending s p))
                             (_bounds_points s))).
  { apply filter_In. split; [exact Hin |]. rewrite andb_comm. exact Hp. }
  rewrite Hf in Hin'. exact Hin'.
Qed.

Lemma bounds_to_do_head (s : LearnerND svc) p rest :
  bounds_to_do s = p :: rest ->
  In p (_bounds_points s) /\ in_data s p = false /\ in_pending s p = false.
Proof.
  intro H.
  assert (Hin : In p (bounds_to_do s)) by (rewrite H; left; reflexivity).
  unfold bounds_to_do in Hin. apply filter_In in Hin. destruct Hin as [Hin Hp].
  apply andb_true_iff in Hp. destruct Hp as [H1 H2].
  apply negb_true_iff in H1, H2. auto.
Qed.

(** While a corner is available, [_ask] is [_ask_bound_point] on the first
    corner still to do. *)
Lemma ask_with_corner (s : LearnerND svc) p rest :
  _bounds_available s = true ->
  bounds_to_do s = p :: rest ->
  _ask nm kernel s
  = match _tell_pending nm p None s with
    | (Val _, s') => (Val (p, Infinity), s')
    | (Exn e, s') => (Exn e, s')
    end.
Proof.
  intros Hav Hdo. unfold _ask, bind at 1, get. simpl. rewrite Hav.
  unfold _ask_bound_point, bind at 1, get. simpl.
  fold (bounds_to_do s). rewrite Hdo.
  unfold bind. destruct (_tell_pending nm p None s) as [[[] | e] s']; reflexivity.
Qed.

End Corners.

(** *** The corners are pairwise different *)

Lemma product_length bnds : length (product bnds) = 2 ^ length bnds.
Proof.
  induction bnds as [| [a b] r IH]; [reflexivity |].
  cbn [product length]. rewrite length_app, !length_map.
  change (2 ^ S (length r)) with (2 * 2 ^ length r).
  unfold Point in *. lia.
Qed.

Lemma Distinct_map_cons a l : Distinct l -> Distinct (map (cons a) l).
Proof.
  induction 1 as [| p l Hp Hd IH]; simpl; constructor; auto.
  intros q Hq. apply in_map_iff in Hq. destruct Hq as [q' [<- Hq']].
  simpl. rewrite (Hp q' Hq'). apply andb_false_r.
Qed.

Lemma Distinct_app l1 l2 :
  Distinct l1 -> Distinct l2 ->
  (forall p q, In p l1 -> In q l2 -> point_eqb q p = false) ->
  Distinct (l1 ++ l2).
Proof.
  induction 1 as [| p l Hp Hd IH]; intros H2 Hx; simpl; [exact H2 |].
  constructor.
  - intros q Hq. apply in_app_or in Hq. destruct Hq as [Hq | Hq].
    + apply Hp. exact Hq.
    + apply Hx; [left; reflexivity | exact Hq].
  - apply IH; [exact H2 |]. intros p' q Hp' Hq. apply Hx; [right; exact Hp' | exact Hq].
Qed.

Lemma product_distinct bnds :
  existsb (fun x => Qeq_bool x 0%Q) (diff bnds) = false -> Distinct (product bnds).
Proof.
  induction bnds as [| [a b] r IH]; simpl; intro H.
  - constructor; [intros q [] | constructor].
  - apply orb_false_iff in H. destruct H as [Hab Hr].
    apply Distinct_app; try (apply Distinct_map_cons; apply IH; exact Hr).
    intros p q Hp Hq.
    apply in_map_iff in Hp. destruct Hp as [p' [<- _]].
    apply in_map_iff in Hq. destruct Hq as [q' [<- _]].
    simpl.
    destruct (Qeq_bool b a) eqn:E; [| reflexivity].
    exfalso. apply Qeq_bool_iff in E.
    assert (E' : Qeq_bool (b - a) 0 = true).
    { apply Qeq_bool_iff. rewrite E. ring. }
    simpl in Hab. congruence.
Qed.

Lemma Distinct_prefix_fresh C :
  Distinct C -> forall j p rest, skipn j C = p :: rest ->
  set_mem point_eqb (firstn j C) p = false.
Proof.
  induction 1 as [| c C Hc Hd IH]; intros [| j] p rest Hs; simpl in *;
    try discriminate; try reflexivity.
  assert (Hin : In p C).
  { rewrite <- (firstn_skipn j C). apply in_or_app. right. rewrite Hs. left. reflexivity. }
  rewrite (Hc p Hin). simpl. eapply IH. exact Hs.
Qed.

Lemma filter_all_true A (f : A -> bool) l :
  (forall x, In x l -> f x = true) -> filter f l = l.
Proof.
  induction l as [| x l IH]; simpl; intro H; [reflexivity |].
  rewrite (H x (or_introl eq_refl)). f_equal. apply IH. intros y Hy. apply H. right. exact Hy.
Qed.

Lemma filter_prefix C :
  Distinct C -> forall j,
  filter (fun p => negb (set_mem point_eqb (firstn j C) p)) C = skipn j C.
Proof.
  induction 1 as [| c C Hc Hd IH]; intros [| j]; simpl; try reflexivity.
  - f_equal. apply filter_all_true. reflexivity.
  - rewrite point_eqb_refl. simpl.
    rewrite <- (IH j). apply filter_ext_in. intros p Hp.
    rewrite (Hc p Hp). reflexivity.
Qed.

Lemma firstn_snoc A (l : list A) j p rest :
  skipn j l = p :: rest -> firstn j l ++ [p] = firstn (S j) l.
Proof.
  revert j. induction l as [| x l IH]; intros [| j] H; simpl in *; try discriminate.
  - injection H as -> _. reflexivity.
  - f_equal. apply IH. exact H.
Qed.

Lemma skipn_step A (l : list A) j p rest :
  skipn j l = p :: rest -> skipn (S j) l = rest.
Proof.
  revert j. induction l as [| x l IH]; intros [| j] H; simpl in *; try discriminate.
  - injection H as _ ->. reflexivity.
  - apply IH. exact H.
Qed.

Lemma Distinct_firstn C k : Distinct C -> Distinct (firstn k C).
Proof.
  intro H. revert k. induction H as [| c C Hc Hd IH]; intros [| k]; simpl;
    try constructor; auto.
  intros q Hq. apply Hc.
  rewrite <- (firstn_skipn k C). apply in_or_app. left. exact Hq.
Qed.

Section CornerBatch.
Variable svc : Service.
Variable nm : Numerics.
Variable kernel : Kernel.

Lemma to_do_available (s : LearnerND svc) p rest :
  bounds_to_do s = p :: rest -> _bounds_available s = true.
Proof.
  intro H. destruct (bounds_to_do_head s H) as [Hin [Hd Hp]].
  unfold _bounds_available. apply existsb_exists. exists p. split; [exact Hin |].
  rewrite Hd, Hp. reflexivity.
Qed.

Lemma ask_corner_outside (s : LearnerND svc) p rest :
  bounds_to_do s = p :: rest ->
  outside_triangulation s p ->
  _ask nm kernel s = (Val (p, Infinity), mark_pending p s).
Proof.
  intros Hdo Hout.
  rewrite (ask_with_corner nm kernel s (to_do_available s Hdo) Hdo).
  rewrite (tell_pending_outside nm s p Hout). reflexivity.
Qed.

Lemma to_do_without_samples (s : LearnerND svc) j :
  Distinct (_bounds_points s) -> data s = [] ->
  _pending s = firstn j (_bounds_points s) ->
  bounds_to_do s = skipn j (_bounds_points s).
Proof.
  intros Hd Hdata Hp. unfold bounds_to_do.
  rewrite <- (filter_prefix Hd j). apply filter_ext. intro p.
  unfold in_data, in_pending, dict_mem. rewrite Hdata, Hp. reflexivity.
Qed.

Lemma ask_loop_corners k : forall j (s : LearnerND svc),
  Distinct (_bounds_points s) -> data s = [] -> _tri s = None ->
  _pending s = firstn j (_bounds_points s) ->
  j + k <= length (_bounds_points s) ->
  exists s',
    ask_loop nm kernel k s
    = (Val (map (fun p => (p, Infinity)) (firstn k (skipn j (_bounds_points s)))), s')
    /\ _pending s' = firstn (j + k) (_bounds_points s)
    /\ data s' = [] /\ _tri s' = None /\ _bounds_points s' = _bounds_points s.
Proof.
  induction k as [| k IH]; intros j s Hd Hdata Htri Hp Hlen.
  - exists s. simpl. rewrite Nat.add_0_r. auto.
  - destruct (skipn j (_bounds_points s)) as [| p rest] eqn:Hs.
    { exfalso. assert (H := length_skipn j (_bounds_points s)).
      rewrite Hs in H. simpl in H. lia. }
    assert (Hdo : bounds_to_do s = p :: rest).
    { rewrite (to_do_without_samples s j Hd Hdata Hp). exact Hs. }
    assert (Hout : outside_triangulation s p).
    { unfold outside_triangulation. rewrite Htri, Hdata. simpl. lia. }
    assert (Hp' : _pending (mark_pending p s) = firstn (S j) (_bounds_points s)).
    { simpl. unfold set_add. rewrite Hp.
      rewrite (Distinct_prefix_fresh Hd j Hs). apply firstn_snoc with rest. exact Hs. }
    destruct (IH (S j) (mark_pending p s) Hd Hdata Htri Hp') as [s' [Hrun Hrest]].
    { simpl. lia. }
    exists s'. split.
    + cbn [ask_loop]. unfold bind at 1.
      rewrite (ask_corner_outside s Hdo Hout).
      unfold bind at 1. rewrite Hrun. unfold ret.
      cbn [_bounds_points mark_pending set_pending].
      rewrite (skipn_step _ _ Hs). reflexivity.
    + replace (j + S k) with (S j + k) by lia. exact Hrest.
Qed.

Lemma init_state bnds anisotropic (s0 : LearnerND svc) :
  init svc bnds anisotropic = Val s0 ->
  data s0 = [] /\ _tri s0 = None /\ _pending s0 = []
  /\ _bounds_points s0 = product bnds /\ Distinct (product bnds)
  /\ _random s0 = 0 /\ _vdim s0 = None.
Proof.
  unfold init, inv_diag.
  destruct (existsb (fun x => Qeq_bool x 0%Q) (diff bnds)) eqn:E; [discriminate |].
  intro H. injection H as <-. simpl. repeat split. apply product_distinct. exact E.
Qed.

Lemma map_fst_pair A B (b : B) (l : list A) : map fst (map (fun p => (p, b)) l) = l.
Proof. induction l; simpl; congruence. Qed.

Lemma map_snd_pair A B (b : B) (l : list A) :
  map snd (map (fun p => (p, b)) l) = repeat b (length l).
Proof. induction l; simpl; congruence. Qed.

(** From a fresh learner, [ask(k)] hands out the first [k] corners. *)
Lemma ask_fresh bnds anisotropic (s0 : LearnerND svc) k :
  init svc bnds anisotropic = Val s0 ->
  1 <= k <= 2 ^ length bnds ->
  exists s',
    ask nm kernel k s0 = (Val (firstn k (product bnds), repeat Infinity k), s')
    /\ Distinct (firstn k (product bnds))
    /\ length (firstn k (product bnds)) = k.
Proof.
  intros Hinit Hk.
  destruct (@init_state _ _ _ Hinit) as [Hdata [Htri [Hpend [Hbp [Hdist _]]]]].
  assert (Hlen : length (firstn k (product bnds)) = k).
  { rewrite length_firstn, product_length. lia. }
  destruct (@ask_loop_corners k 0 s0) as [s' [Hrun _]]; try assumption.
  - rewrite Hbp. exact Hdist.
  - rewrite Hbp, product_length. simpl. lia.
  - exists s'. split; [| split; [apply Distinct_firstn; exact Hdist | exact Hlen]].
    unfold ask, bind. rewrite Hrun. rewrite Hbp.
    change (skipn 0 (product bnds)) with (product bnds).
    rewrite map_fst_pair, map_snd_pair, Hlen.
    destruct (firstn k (product bnds)) as [| c cs].
    + simpl in Hlen. lia.
    + reflexivity.
Qed.

End CornerBatch.

Lemma session_reachable bnds calls answers (s : Scenario.L) :
  Scenario.session bnds calls = Val (answers, s) ->
  reachable Line.numerics Geometry.kernel uniform_loss s.
Proof.
  unfold Scenario.session.
  destruct (init Line.service bnds false) as [s0 |] eqn:Hinit; [| discriminate].
  intro H. injection H as H.
  exists bnds, false, s0, calls. split; [exact Hinit |]. rewrite H. reflexivity.
Qed.

(** The corner phase of [_ask], for any state. *)
Lemma corner_phase svc nm kernel (s : LearnerND svc) :
  _bounds_available s = true ->
  exists p rest,
    bounds_to_do s = p :: rest
    /\ In p (_bounds_points s)
    /\ in_data s p = false /\ in_pending s p = false
    /\ (forall r s', _ask nm kernel s = (Val r, s') -> r = (p, Infinity))
    /\ (outside_triangulation s p ->
        _ask nm kernel s = (Val (p, Infinity), mark_pending p s)).
Proof.
  intros Hav.
  destruct (bounds_available_to_do s Hav) as [p [rest Hdo]].
  destruct (bounds_to_do_head s Hdo) as [Hin [Hd Hp]].
  exists p, rest. repeat split; try assumption.
  - intros r s'. rewrite (ask_with_corner nm kernel s Hav Hdo).
    destruct (_tell_pending nm p None s) as [[[] | e] s1]; intro H.
    + injection H as <- _. reflexivity.
    + discriminate.
  - apply ask_corner_outside with rest. exact Hdo.
Qed.



(** ** What [ask] hands out *)

Lemma bind_val S A B (m : M S A) (k : A -> M S B) s b s' :
  bind m k s = (Val b, s') ->
  exists a s1, m s = (Val a, s1) /\ k a s1 = (Val b, s').
Proof.
  unfold bind. destruct (m s) as [[a | e] s1]; intro H; [eauto | discriminate].
Qed.

Lemma bind_of_val S A B (m : M S A) (k : A -> M S B) s a s1 :
  m s = (Val a, s1) -> bind m k s = k a s1.
Proof. intro H. unfold bind. rewrite H. reflexivity. Qed.

Lemma bind_of_exn S A B (m : M S A) (k : A -> M S B) s e s1 :
  m s = (Exn e, s1) -> bind m k s = (Exn e, s1).
Proof. intro H. unfold bind. rewrite H. reflexivity. Qed.

Ltac bind_as H a s1 H1 :=
  apply bind_val in H; destruct H as [a [s1 [H1 H]]].

Ltac bind_inv H :=
  let a := fresh "a" in
  let s1 := fresh "s" in
  let H1 := fresh "Hm" in
  apply bind_val in H; destruct H as [a [s1 [H1 H]]].

Section AskedPoints.
Variable svc : Service.
Variable nm : Numerics.
Variable kernel : Kernel.

Lemma pending_grows_refl (s : LearnerND svc) : pending_grows s s.
Proof. intros q H. exact H. Qed.

Lemma pending_grows_trans (s1 s2 s3 : LearnerND svc) :
  pending_grows s1 s2 -> pending_grows s2 s3 -> pending_grows s1 s3.
Proof. intros H1 H2 q H. apply H2, H1, H. Qed.

Lemma pending_grows_mark p (s : LearnerND svc) : pending_grows s (mark_pending p s).
Proof. intros q H. unfold in_pending in *. simpl. apply set_mem_add_mono. exact H. Qed.

Lemma set_add_again l p :
  set_add point_eqb (set_add point_eqb l p) p = set_add point_eqb l p.
Proof.
  unfold set_add at 1. rewrite set_mem_add_same. reflexivity.
Qed.

Lemma mark_pending_again p (s : LearnerND svc) :
  mark_pending p (mark_pending p s) = mark_pending p s.
Proof. unfold mark_pending. simpl. rewrite set_add_again. reflexivity. Qed.

Lemma subdivide_for_grows p sx : respects (@pending_grows svc) (subdivide_for nm p sx).
Proof.
  apply respects_subdivide_for;
    try (match goal with |- respects _ (tri _) => apply respects_tri_setter end);
    try (unfold pending_grows; intros; assumption);
    try (intros ? ? ? H1 H2; eapply pending_grows_trans; eassumption).
Qed.

(** [_tell_pending(p)] leaves [p] pending, however it ends. *)
Lemma tell_pending_marks p sx (s : LearnerND svc) :
  in_pending (snd (_tell_pending nm p sx s)) p = true.
Proof.
  unfold _tell_pending, bind at 1, modify. fold (mark_pending p s).
  assert (H : in_pending (snd (subdivide_for nm p sx (mark_pending p s))) p = true).
  { apply (subdivide_for_grows p sx (mark_pending p s)).
    unfold in_pending. simpl. apply set_mem_add_same. }
  destruct (subdivide_for nm p sx (mark_pending p s)) as [[[] | e] s1]; exact H.
Qed.

Lemma ask1_grows : respects (@pending_grows svc) (_ask nm kernel).
Proof.
  apply respects_ask1;
    try (match goal with |- respects _ (tri _) => apply respects_tri_setter end);
    try (unfold pending_grows; intros; assumption);
    try (intros ? ? ? H1 H2; eapply pending_grows_trans; eassumption).
  intros q s. apply pending_grows_mark.
Qed.

Lemma ask_bound_point_marks (s : LearnerND svc) p pr s' :
  _ask_bound_point nm s = (Val (p, pr), s') -> in_pending s' p = true.
Proof.
  unfold _ask_bound_point. intro H. bind_inv H. injection Hm as <- <-.
  destruct (filter _ _) as [| c rest]; [discriminate |].
  bind_inv H. injection H as <- _ <-.
  pose proof (tell_pending_marks c None s) as Hp. rewrite Hm in Hp. exact Hp.
Qed.

Lemma ask_random_point_marks (s : LearnerND svc) p pr s' :
  _ask_point_without_known_simplices nm s = (Val (p, pr), s') ->
  in_pending s' p = true.
Proof.
  unfold _ask_point_without_known_simplices. intro H. bind_inv H.
  injection Hm as <- <-.
  destruct (_bounds_available s); [discriminate |].
  bind_inv H. bind_inv H. injection H as <- _ <-.
  match type of Hm0 with
  | _tell_pending _ ?c _ ?s1 = _ =>
      pose proof (tell_pending_marks c None s1) as Hp; rewrite Hm0 in Hp; exact Hp
  end.
Qed.

Lemma ask_best_point_marks (s : LearnerND svc) p pr s' :
  _ask_best_point nm kernel s = (Val (p, pr), s') -> in_pending s' p = true.
Proof.
  unfold _ask_best_point. intro H.
  bind_inv H. bind_inv H. bind_inv H. bind_inv H. bind_inv H.
  destruct a3 as [[l simplex] subsimplex].
  bind_inv H. bind_inv H. bind_inv H. bind_inv H. bind_inv H.
  injection H as <- _ <-.
  match type of Hm8 with
  | _tell_pending _ ?c ?sx ?s1 = _ =>
      pose proof (tell_pending_marks c sx s1) as Hp; rewrite Hm8 in Hp; exact Hp
  end.
Qed.

Lemma ask1_marks (s : LearnerND svc) p pr s' :
  _ask nm kernel s = (Val (p, pr), s') -> in_pending s' p = true.
Proof.
  unfold _ask. intro H. bind_inv H. injection Hm as <- <-.
  destruct (_bounds_available s).
  - eapply ask_bound_point_marks. exact H.
  - bind_inv H. destruct a as [t |].
    + eapply ask_best_point_marks. exact H.
    + eapply ask_random_point_marks. exact H.
Qed.

End AskedPoints.




(** The statement at work: after 0, 1 and 2 were told over (0, 4),
    telling 1 again changes nothing but the standard output. *)
Lemma tell_sampled_point_is_noop_witness :
  Scenario.session [(0, 4)%Q]
    [Scenario.sample 0 0; Scenario.sample 1 0; Scenario.sample 2 0]
  = Val ([Val Done; Val Done; Val Done], Scenario.told_012)
  /\ exists s',
      tell Line.numerics uniform_loss [1%Q] (Some (Scalar 5)) Scenario.told_012
      = (Val tt, s')
      /\ data s' = data Scenario.told_012
      /\ _losses_combined s' = _losses_combined Scenario.told_012.
Proof.
  split; [reflexivity |].
  destruct (tell_sampled_point_is_noop Line.numerics uniform_loss
              Scenario.told_012 [1%Q] (Some (Scalar 5)))
    as [s' [H1 [H2 [_ [_ [_ [H3 _]]]]]]].
  - reflexivity.
  - exists s'. auto.
Defined.

(** ** The reported loss *)

Lemma dict_set_length V (d : list (Point * V)) k v :
  length d <= length (dict_set point_eqb d k v).
Proof.
  induction d as [| [k' v'] d IH]; simpl; [lia |].
  destruct (point_eqb k k'); simpl; lia.
Qed.

Lemma max_list_upper l : forall x,
  (x <= max_list x l)%Q /\ (forall y, In y l -> (y <= max_list x l)%Q).
Proof.
  induction l as [| a l IH]; intro x; simpl.
  - split; [apply Qle_refl | intros y []].
  - unfold max_list in *. simpl.
    set (x' := if Qltb x a then a else x).
    destruct (IH x') as [H1 H2].
    assert (Hx : (x <= x')%Q /\ (a <= x')%Q).
    { unfold x', Qltb. destruct (Qle_bool a x) eqn:E; simpl.
      - split; [apply Qle_refl | apply Qle_bool_iff; exact E].
      - split; [| apply Qle_refl].
        destruct (Qlt_le_dec x a) as [Hlt | Hle].
        + apply Qlt_le_weak. exact Hlt.
        + apply Qle_bool_iff in Hle. congruence. }
    destruct Hx as [Hx Ha]. split.
    + eapply Qle_trans; eassumption.
    + intros y [<- | Hy]; [eapply Qle_trans; eassumption | apply H2; exact Hy].
Qed.

Lemma max_list_member l : forall x, In (max_list x l) (x :: l).
Proof.
  induction l as [| a l IH]; intro x; [left; reflexivity |].
  unfold max_list in *. simpl fold_left.
  destruct (IH (if Qltb x a then a else x)) as [H | H].
  - destruct (Qltb x a); [right; left; exact H | left; exact H].
  - right. right. exact H.
Qed.

Section ReportedLoss.
Variable svc : Service.
Variable nm : Numerics.

Lemma reachable_tri_needs_two kernel lps (s : LearnerND svc) :
  reachable nm kernel lps s -> tri_needs_two s.
Proof.
  intros [bnds [aniso [s0 [calls [Hinit ->]]]]].
  destruct (@init_state _ _ _ _ Hinit) as [_ [Htri _]].
  assert (H0 : tri_needs_two s0) by (left; exact Htri).
  revert H0.
  set (R := fun s s' : LearnerND svc => tri_needs_two s -> tri_needs_two s').
  assert (Rt : forall s1 s2 s3, R s1 s2 -> R s2 s3 -> R s1 s3)
    by (unfold R; auto).
  assert (Rtri : forall t s, 2 <= length (data s) \/ _tri s <> None ->
                             R s (set_tri (Some t) s)).
  { intros t s [H | H] Hinv; right; simpl; [exact H |].
    destruct Hinv as [Hn | Hl]; [contradiction | exact Hl]. }
  apply (@respects_run svc nm kernel lps R);
    try (unfold R, tri_needs_two; simpl; intros; assumption);
    try exact Rt; try exact Rtri.
  - apply respects_tri_setter; [unfold R; auto | exact Rt | exact Rtri].
  - unfold R, tri_needs_two. simpl. intros p y s [H | H]; [left; exact H | right].
    eapply Nat.le_trans; [exact H | apply dict_set_length].
Qed.

Lemma tri_add_all_unit to_add (s : LearnerND svc) r s' :
  tri_add_all to_add s = (Val r, s') -> r = tt.
Proof. destruct r. reflexivity. Qed.

Lemma tri_none_result (s : LearnerND svc) r s' :
  _tri s = None -> tri nm s = (Val r, s') -> r = None.
Proof.
  intros Hn H. unfold tri in H. bind_inv H. injection Hm as <- <-.
  rewrite Hn in H. destruct (length (data s) <? 2).
  - injection H as <- _. reflexivity.
  - bind_inv H. destruct a as [initial |].
    + do 4 bind_inv H. injection H as <- _. reflexivity.
    + injection H as <- _. reflexivity.
Qed.

Lemma loss_without_triangulation (s : LearnerND svc) r s' :
  _tri s = None -> loss nm s = (Val r, s') -> r = Infinity.
Proof.
  intros Hn H. unfold loss, losses in H. bind_inv H. bind_inv Hm.
  rewrite (tri_none_result s Hn Hm0) in Hm. injection Hm as <- <-.
  injection H as <- _. reflexivity.
Qed.

Lemma loss_with_triangulation (s : LearnerND svc) t :
  _tri s = Some t -> loss nm s = (Val (ledger_max (_losses s)), s).
Proof.
  intro Ht. unfold loss, losses, bind. rewrite (tri_built nm s Ht).
  unfold get, ret, ledger_max. simpl. destruct (map snd (_losses s)); reflexivity.
Qed.

Lemma ledger_max_finite ledger x :
  ledger_max ledger = Finite x ->
  (exists simplex, In (simplex, x) ledger)
  /\ (forall simplex y, In (simplex, y) ledger -> (y <= x)%Q).
Proof.
  unfold ledger_max. destruct ledger as [| [s0 x0] rest]; simpl; [discriminate |].
  intro H. injection H as <-. split.
  - destruct (max_list_member (map snd rest) x0) as [H | H].
    + exists s0. left. f_equal. exact H.
    + apply in_map_iff in H. destruct H as [[sx y] [Hy Hin]]. simpl in Hy.
      exists sx. right. rewrite <- Hy. exact Hin.
  - intros sx y [H | H].
    + injection H as _ <-. apply (proj1 (max_list_upper (map snd rest) x0)).
    + apply (proj2 (max_list_upper (map snd rest) x0)).
      apply in_map_iff. exists (sx, y). auto.
Qed.

End ReportedLoss.




(** ** Values of any dimensionality are stored *)

Section StoredValues.
Variable svc : Service.
Variable nm : Numerics.
Variable loss_per_simplex : list Point -> list value -> outcome Q.

Lemma tell_store_ok (s : LearnerND svc) p y :
  length p = length (_scale_matrix s) ->
  exists s1, tell_store p y s = (Val tt, s1)
             /\ data s1 = dict_set point_eqb (data s) p y
             /\ _vdim s1 = _vdim s.
Proof.
  intro Hlen. unfold tell_store, bind, modify, get, ret. simpl.
  apply Nat.eqb_eq in Hlen. rewrite Hlen. simpl.
  eexists. split; [reflexivity |]. split; reflexivity.
Qed.

Lemma tell_triangulate_keeps p :
  respects (fun s s' : LearnerND svc => data s' = data s /\ _vdim s' = _vdim s)
           (tell_triangulate nm loss_per_simplex p).
Proof.
  apply respects_tell_triangulate;
    try (match goal with |- respects _ (tri _) => apply respects_tri_setter end);
    try (simpl; intros; split; reflexivity).
  all: intros s1 s2 s3 [H1 H1'] [H2 H2']; split; congruence.
Qed.

Lemma tell_new_point (s : LearnerND svc) p y :
  in_data s p = false ->
  tell nm loss_per_simplex p (Some y) s
  = (tell_store p y ;;; tell_triangulate nm loss_per_simplex p)
      (set_stdout (stdout s ++ [PrintedPoint p]) s).
Proof.
  intro Hin. unfold tell. unfold bind at 1. unfold print, modify.
  unfold bind at 1. unfold get.
  change (in_data (set_stdout (stdout s ++ [PrintedPoint p]) s) p) with (in_data s p).
  rewrite Hin. reflexivity.
Qed.

Lemma tell_data (s : LearnerND svc) p y :
  in_data s p = false ->
  length p = length (_scale_matrix s) ->
  data (snd (tell nm loss_per_simplex p (Some y) s)) = dict_set point_eqb (data s) p y
  /\ _vdim (snd (tell nm loss_per_simplex p (Some y) s)) = _vdim s.
Proof.
  intros Hin Hlen. rewrite (tell_new_point s p y Hin).
  set (s0 := set_stdout (stdout s ++ [PrintedPoint p]) s).
  destruct (tell_store_ok s0 p y Hlen) as [s1 [Hst [Hd Hv]]].
  unfold bind. rewrite Hst.
  pose proof (tell_triangulate_keeps p s1) as [Hk Hk'].
  assert (Hd0 : data s0 = data s) by reflexivity.
  assert (Hv0 : _vdim s0 = _vdim s) by reflexivity.
  destruct (tell_triangulate nm loss_per_simplex p s1) as [[[] | e] s2];
    cbn [snd] in *; split; congruence.
Qed.

Lemma vdim_cached (s : LearnerND svc) m :
  _vdim s = Some m -> vdim s = (Val m, s).
Proof.
  intro H. unfold vdim, bind, get, ret. simpl. rewrite H. simpl. rewrite H. reflexivity.
Qed.

Lemma vdim_first_value (s : LearnerND svc) p0 v0 rest :
  _vdim s = None -> data s = (p0, v0) :: rest ->
  vdim s = (Val (value_dim v0), set_vdim (Some (value_dim v0)) s).
Proof.
  intros H Hd. unfold vdim, bind, get, ret, modify. simpl. rewrite H, Hd. reflexivity.
Qed.

End StoredValues.




(** ** Candidate points and the transform *)

(** Without a transform the candidate is the centroid of a well-shaped
    simplex and the midpoint of the longest edge otherwise. *)
Lemma choose_point_untransformed kernel simplex center inside :
  circumsphere kernel simplex = Val center ->
  point_in_simplex kernel center simplex = Val inside ->
  choose_point_in_simplex kernel simplex None
  = Val (if inside then average simplex
         else vdivc (vadd (nth (fst (argmax_pair simplex)) simplex [])
                          (nth (snd (argmax_pair simplex)) simplex [])) 2%Q).
Proof.
  intros Hc Hi. unfold choose_point_in_simplex. rewrite Hc, Hi.
  destruct inside; [reflexivity |]. destruct (argmax_pair simplex). reflexivity.
Qed.

(** C7, evaluated where it fails.  The transform is applied to the rows
    on the right ([np.dot(simplex, transform)]) and undone on the left
    ([np.linalg.solve(transform, point)]).  For the shear, whose image of
    the triangle holds its circumcentre, the function returns (1/3, 2/3)
    where the centroid of the triangle is (1, -1/3); for the needle it
    returns (0, 2) where the midpoint of the longest edge is (2, 0).  With
    the diagonal scale matrix both sides agree. *)
Theorem transform_is_undone_on_the_wrong_side :
  mat_mul Shear.triangle Shear.shear = [[0; 0]; [2; 0]; [1; 2]]%Q
  /\ circumsphere Geometry.kernel (mat_mul Shear.triangle Shear.shear)
     = Val [0x1.0%xQ; 0x0.c%xQ]
  /\ point_in_simplex Geometry.kernel [0x1.0%xQ; 0x0.c%xQ]
       (mat_mul Shear.triangle Shear.shear) = Val true
  /\ choose_point_in_simplex Geometry.kernel Shear.triangle (Some Shear.shear)
     = Val [(3 # 9)%Q; (6 # 9)%Q]
  /\ average Shear.triangle = [(3 # 3)%Q; (-1 # 3)%Q]
  /\ point_eqb [(3 # 9)%Q; (6 # 9)%Q] (average Shear.triangle) = false
  /\ choose_point_in_simplex Geometry.kernel Shear.needle (Some Shear.shear)
     = Val [(0 # 4)%Q; (8 # 4)%Q]
  /\ choose_point_in_simplex Geometry.kernel Shear.needle None
     = Val [(4 # 2)%Q; (0 # 2)%Q]
  /\ choose_point_in_simplex Geometry.kernel Shear.triangle (Some Shear.scale)
     = Val [(1024 # 1024)%Q; (-512 # 512)%Q].
Proof.
  repeat split; vm_compute; reflexivity.
Qed.

(** ** A pending point in a simplex of volume zero *)



(** ** The private random generator *)

Section SeededStream.
Variable svc : Service.
Variable nm : Numerics.
Variable kernel : Kernel.
Variable loss_per_simplex : list Point -> list value -> outcome Q.

Ltac draws_frame :=
  try (unfold same_draws; simpl; intros; reflexivity);
  try (unfold same_draws; intros ? ? ? H1 H2; congruence).

Lemma tell_pending_same_draws p sx : respects (@same_draws svc) (_tell_pending nm p sx).
Proof. apply respects_tell_pending;
    try (match goal with |- respects _ (tri _) => apply respects_tri_setter end); draws_frame. Qed.

Lemma tell_same_draws p v : respects (@same_draws svc) (tell nm loss_per_simplex p v).
Proof. apply respects_tell;
    try (match goal with |- respects _ (tri _) => apply respects_tri_setter end); draws_frame. Qed.

Lemma loss_same_draws : respects (@same_draws svc) (loss nm).
Proof. apply respects_loss;
    try (match goal with |- respects _ (tri _) => apply respects_tri_setter end); draws_frame. Qed.

Lemma ask_bound_point_same_draws : respects (@same_draws svc) (_ask_bound_point nm).
Proof. apply respects_ask_bound_point;
    try (match goal with |- respects _ (tri _) => apply respects_tri_setter end); draws_frame. Qed.

Lemma ask_best_point_same_draws : respects (@same_draws svc) (_ask_best_point nm kernel).
Proof. apply respects_ask_best_point;
    try (match goal with |- respects _ (tri _) => apply respects_tri_setter end); draws_frame. Qed.

Lemma random_phase (s : LearnerND svc) p pr s' :
  _ask_point_without_known_simplices nm s = (Val (p, pr), s') ->
  p = random_point nm s /\ pr = Infinity /\ _random s' = _random s + ndim s.
Proof.
  unfold _ask_point_without_known_simplices. intro H. bind_inv H.
  injection Hm as <- <-.
  destruct (_bounds_available s); [discriminate |].
  bind_inv H. injection Hm as _ <-. bind_inv H. injection H as <- <- <-.
  split; [reflexivity |]. split; [reflexivity |].
  match type of Hm with
  | _tell_pending _ ?c _ ?s1 = _ =>
      pose proof (tell_pending_same_draws c None s1) as Hd; rewrite Hm in Hd
  end.
  unfold same_draws in Hd. simpl in Hd. exact Hd.
Qed.

End SeededStream.



(** ** The heap keeps what is pushed *)

Lemma list_set_length A (l : list A) i x : length (list_set l i x) = length l.
Proof.
  revert i. induction l as [| y l IH]; intros [| i]; simpl; try reflexivity.
  rewrite IH. reflexivity.
Qed.

Lemma nth_list_set_same A (l : list A) i x d :
  i < length l -> nth i (list_set l i x) d = x.
Proof.
  revert i. induction l as [| y l IH]; intros [| i] H; simpl in *; try lia.
  - reflexivity.
  - apply IH. lia.
Qed.

Lemma nth_list_set_other A (l : list A) i k x d :
  k <> i -> nth k (list_set l i x) d = nth k l d.
Proof.
  revert i k. induction l as [| y l IH]; intros [| i] [| k] H; simpl; try reflexivity.
  - contradiction.
  - apply IH. lia.
Qed.

Lemma In_list_set A (l : list A) i x d y :
  In y (list_set l i x) ->
  y = x \/ exists k, k <> i /\ k < length l /\ nth k l d = y.
Proof.
  intro H. destruct (In_nth _ _ d H) as [k [Hk Hy]].
  rewrite list_set_length in Hk.
  destruct (Nat.eq_dec k i) as [-> | Hne].
  - left. rewrite nth_list_set_same in Hy by exact Hk. congruence.
  - right. exists k. rewrite nth_list_set_other in Hy by exact Hne. auto.
Qed.

Lemma In_list_set_new A (l : list A) i x : i < length l -> In x (list_set l i x).
Proof.
  intro H. rewrite <- (nth_list_set_same l x x H) at 1.
  apply nth_In. rewrite list_set_length. exact H.
Qed.

Lemma In_list_set_old A (l : list A) i k x d :
  k <> i -> k < length l -> In (nth k l d) (list_set l i x).
Proof.
  intros Hne Hk. rewrite <- (nth_list_set_other l x d Hne).
  apply nth_In. rewrite list_set_length. exact Hk.
Qed.

Lemma parent_below pos : 0 < pos -> (pos - 1) / 2 < pos.
Proof.
  intro H. apply Nat.le_lt_trans with (pos - 1); [| lia].
  apply Nat.Div0.div_le_upper_bound. lia.
Qed.

(** Sifting an item down moves entries around and loses none. *)
Lemma siftdown_loop_keeps fuel : forall h startpos pos newitem h',
  siftdown_loop fuel h startpos pos newitem = Val h' ->
  pos < length h ->
  forall y, In y (list_set h pos newitem) -> In y h'.
Proof.
  induction fuel as [| fuel IH]; intros h startpos pos newitem h' H Hpos y Hy;
    cbn [siftdown_loop] in H.
  - injection H as <-. exact Hy.
  - destruct (startpos <? pos) eqn:Hlt; [| injection H as <-; exact Hy].
    apply Nat.ltb_lt in Hlt.
    assert (Hpar : (pos - 1) / 2 < pos) by (apply parent_below; lia).
    destruct (entry_lt newitem (nth ((pos - 1) / 2) h dummy_entry)) as [[|] | e];
      try discriminate; [| injection H as <-; exact Hy].
    apply (@IH _ _ _ _ _ H).
    + rewrite list_set_length. lia.
    + destruct (In_list_set h pos newitem dummy_entry y Hy) as [-> | [k [Hne [Hk <-]]]].
      * apply In_list_set_new. rewrite list_set_length. lia.
      * destruct (Nat.eq_dec k ((pos - 1) / 2)) as [-> | Hne'].
        -- rewrite <- (nth_list_set_same h (nth ((pos - 1) / 2) h dummy_entry)
                        dummy_entry Hpos) at 1.
           apply In_list_set_old; [lia | rewrite list_set_length; exact Hpos].
        -- rewrite <- (nth_list_set_other h (nth ((pos - 1) / 2) h dummy_entry)
                        dummy_entry Hne).
           apply In_list_set_old; [exact Hne' | rewrite list_set_length; exact Hk].
Qed.

Lemma list_set_nth_same A (l : list A) i d : list_set l i (nth i l d) = l.
Proof.
  revert i. induction l as [| y l IH]; intros [| i]; simpl; try reflexivity.
  rewrite IH. reflexivity.
Qed.

Lemma heappush_keeps h item h' :
  heappush h item = Val h' ->
  In item h' /\ (forall y, In y h -> In y h').
Proof.
  unfold heappush, siftdown. intro H.
  assert (Hlen : length (h ++ [item]) - 1 < length (h ++ [item])).
  { rewrite length_app. simpl. lia. }
  pose proof (@siftdown_loop_keeps _ _ _ _ _ _ H Hlen) as Hk.
  rewrite list_set_nth_same in Hk. split.
  - apply Hk. apply in_or_app. right. left. reflexivity.
  - intros y Hy. apply Hk. apply in_or_app. left. exact Hy.
Qed.

(** ** Loss apportioned to sub-cells *)

Lemma lift_val S A (o : outcome A) (s s' : S) a :
  lift o s = (Val a, s') -> o = Val a /\ s' = s.
Proof. unfold lift. intro H. injection H as -> ->. auto. Qed.

Lemma simplex_eqb_refl a : simplex_eqb a a = true.
Proof. induction a as [| x a IH]; simpl; [reflexivity |]. rewrite Nat.eqb_refl. exact IH. Qed.

Lemma ledger_get_set V (d : list (Simplex * V)) k v :
  dict_get simplex_eqb (dict_set simplex_eqb d k v) k = Some v.
Proof.
  induction d as [| [k' w] d IH]; simpl.
  - rewrite simplex_eqb_refl. reflexivity.
  - destruct (simplex_eqb k k') eqn:H; simpl; rewrite H; [reflexivity | exact IH].
Qed.

Lemma share_of_loss l v d vc :
  pydiv l v = Val d -> (vc * d == (vc / v) * l)%Q.
Proof.
  unfold pydiv. destruct (Qeq_bool v 0) eqn:E; [discriminate |].
  intro H. injection H as <-.
  assert (Hv : ~ (v == 0)%Q).
  { intro Hv. apply Qeq_bool_iff in Hv. congruence. }
  field. exact Hv.
Qed.

Lemma sum_scaled A (vol : A -> Q) d cells :
  (sum_Q (map (fun c => vol c * d) cells) == sum_Q (map vol cells) * d)%Q.
Proof.
  induction cells as [| c cells IH]; simpl; [ring |].
  rewrite IH. ring.
Qed.

Lemma shares_add_up A (vol : A -> Q) cells l v d :
  pydiv l v = Val d ->
  (sum_Q (map vol cells) == v)%Q ->
  (sum_Q (map (fun c => vol c * d) cells) == l)%Q.
Proof.
  intros Hd Hsum. rewrite sum_scaled, Hsum.
  unfold pydiv in Hd. destruct (Qeq_bool v 0) eqn:E; [discriminate |].
  injection Hd as <-.
  assert (Hv : ~ (v == 0)%Q).
  { intro Hv. apply Qeq_bool_iff in Hv. congruence. }
  field. exact Hv.
Qed.

Section Apportioning.
Variable svc : Service.
Variable nm : Numerics.
Variable loss_per_simplex : list Point -> list value -> outcome Q.

Lemma push_loss_val item (s s' : LearnerND svc) :
  push_loss item s = (Val tt, s') ->
  In item (_losses_combined s') /\ heap_grows s s' /\ same_books s s'.
Proof.
  unfold push_loss. intro H. bind_inv H. injection Hm as <- <-.
  bind_inv H. apply lift_val in Hm. destruct Hm as [Hm ->].
  injection H as <-.
  destruct (heappush_keeps _ _ Hm) as [H1 H2].
  split; [exact H1 |]. split; [exact H2 |]. repeat split.
Qed.

Lemma push_sublosses_val st d simpl cells : forall (s s' : LearnerND svc),
  push_sublosses st d simpl cells s = (Val tt, s') ->
  (forall c, In c cells ->
     In (mk_entry (- (tri_volume svc st c * d))%Q simpl (Some c))
        (_losses_combined s'))
  /\ heap_grows s s' /\ same_books s s'.
Proof.
  unfold push_sublosses.
  induction cells as [| c cells IH]; intros s s' H; cbn [for_each] in H.
  - injection H as <-. split; [intros c [] |]. split; [intros y Hy; exact Hy |].
    repeat split.
  - bind_inv H. destruct a.
    apply push_loss_val in Hm. destruct Hm as [Hc [Hg Hb]].
    apply IH in H. destruct H as [Hcs [Hg' Hb']].
    split; [| split].
    + intros c' [<- | Hc']; [apply Hg'; exact Hc | apply Hcs; exact Hc'].
    + intros y Hy. apply Hg', Hg, Hy.
    + destruct Hb as [Hb1 [Hb2 Hb3]]. destruct Hb' as [Hb1' [Hb2' Hb3']].
      repeat split; congruence.
Qed.

Lemma same_ledger_refl (s : LearnerND svc) : same_ledger s s.
Proof. unfold same_ledger. auto. Qed.

Lemma same_ledger_trans (s1 s2 s3 : LearnerND svc) :
  same_ledger s1 s2 -> same_ledger s2 s3 -> same_ledger s1 s3.
Proof.
  unfold same_ledger. intros H12 H23 t Ht.
  destruct (H12 t Ht) as [A1 [A2 A3]]. destruct (H23 t A1) as [B1 [B2 B3]].
  repeat split; congruence.
Qed.

Lemma same_ledger_tri : respects (@same_ledger svc) (tri nm).
Proof.
  intros s t Ht. rewrite (tri_built nm s Ht). simpl. auto.
Qed.

Lemma rehome_same_ledger simplex p :
  respects (@same_ledger svc) (rehome nm simplex p).
Proof.
  apply respects_rehome;
    try (unfold same_ledger; simpl; intros; repeat split; (reflexivity || assumption)).
  - apply same_ledger_trans.
  - apply same_ledger_tri.
Qed.

Lemma rehome_all_same_ledger simplex unbound :
  respects (@same_ledger svc) (for_each unbound (rehome nm simplex)).
Proof.
  apply respects_for_each.
  - apply same_ledger_refl.
  - apply same_ledger_trans.
  - intro p. apply rehome_same_ledger.
Qed.

(** An added simplex gets its ledger entry and its queue entries. *)
Lemma add_simplex_funds unbound simplex (s s' : LearnerND svc) t :
  add_simplex nm loss_per_simplex unbound simplex s = (Val tt, s') ->
  _tri s = Some t ->
  exists l,
    dict_get simplex_eqb (_losses s') simplex = Some l
    /\ match dict_get simplex_eqb (_subtriangulations s') simplex with
       | None => In (mk_entry (- l)%Q simplex None) (_losses_combined s')
       | Some st =>
           exists d,
             pydiv l (tri_volume svc t simplex) = Val d
             /\ forall c, In c (simplices svc st) ->
                  In (mk_entry (- (tri_volume svc st c * d))%Q simplex (Some c))
                     (_losses_combined s')
       end.
Proof.
  intros H Ht. unfold add_simplex in H.
  bind_as H t0 s0 E0. rewrite (tri_required_built nm s Ht) in E0.
  injection E0 as <- <-.
  bind_as H s1 s1' E1. injection E1 as <- <-.
  bind_as H values s2 E2. apply lift_val in E2. destruct E2 as [_ ->].
  bind_as H l s3 E3. apply lift_val in E3. destruct E3 as [_ ->].
  bind_as H u4 s4 E4. injection E4 as _ <-.
  bind_as H u5 s5 E5.
  match type of E5 with
  | for_each _ _ ?sL = _ =>
      pose proof (rehome_all_same_ledger simplex unbound sL Ht) as Hk;
      rewrite E5 in Hk; destruct Hk as [K1 [K2 K3]]
  end.
  cbn [snd] in K1, K2, K3. simpl in K2.
  bind_as H s6 s6' E6. injection E6 as <- <-.
  exists l.
  destruct (dict_get simplex_eqb (_subtriangulations s5) simplex) as [st |] eqn:Hst.
  - bind_as H t7 s7 E7.
    rewrite (tri_required_built nm s5 K1) in E7. injection E7 as <- <-.
    bind_as H d s8 E8. apply lift_val in E8. destruct E8 as [Hd ->].
    apply push_sublosses_val in H. destruct H as [Hc [_ [_ [B2 B3]]]].
    split; [rewrite B2, K2; apply ledger_get_set |].
    rewrite B3, Hst. exists d. split; [exact Hd | exact Hc].
  - apply push_loss_val in H. destruct H as [Hc [_ [_ [B2 B3]]]].
    split; [rewrite B2, K2; apply ledger_get_set |].
    rewrite B3, Hst. exact Hc.
Qed.

End Apportioning.

Section ApportioningPending.
Variable svc : Service.
Variable nm : Numerics.

(** The first half of the loop body of [_tell_pending]: the point enters
    the sub-triangulation of the simplex, which is created on demand. *)
Lemma subtriangulation_takes_point p simpl (s : LearnerND svc) t
      (m : M (LearnerND svc) (list Simplex)) toadd s2 :
  m = match dict_get simplex_eqb (_subtriangulations s) simpl with
      | None =>
          t1 <- tri_required nm ;;
          let vertices := get_vertices svc t1 simpl in
          tr <- lift (Triangulation svc vertices) ;;
          modify (fun s => set_subtriangulations
                             (dict_set simplex_eqb (_subtriangulations s) simpl tr) s) ;;;
          first <- lift (match simplices svc tr with
                         | [] => Exn StopIteration
                         | c :: _ => Val c
                         end) ;;
          r <- lift (add_point svc tr p (Some first) None) ;;
          modify (fun s => set_subtriangulations
                             (dict_set simplex_eqb (_subtriangulations s) simpl (fst r)) s) ;;;
          ret (snd (snd r))
      | Some tr =>
          r <- lift (add_point svc tr p None None) ;;
          modify (fun s => set_subtriangulations
                             (dict_set simplex_eqb (_subtriangulations s) simpl (fst r)) s) ;;;
          ret (snd (snd r))
      end ->
  _tri s = Some t ->
  m s = (Val toadd, s2) ->
  exists tr0 hint r,
    add_point svc tr0 p hint None = Val r
    /\ toadd = snd (snd r)
    /\ dict_get simplex_eqb (_subtriangulations s2) simpl = Some (fst r)
    /\ _tri s2 = Some t /\ _losses s2 = _losses s
    /\ _losses_combined s2 = _losses_combined s.
Proof.
  intros -> Ht H.
  destruct (dict_get simplex_eqb (_subtriangulations s) simpl) as [tr |].
  - bind_as H r s3 E3. apply lift_val in E3. destruct E3 as [Hadd ->].
    bind_as H u s4 E4. injection E4 as _ <-.
    unfold ret in H. injection H as Ha Hb. subst toadd s2.
    exists tr, None, r. simpl. rewrite ledger_get_set.
    repeat split; (reflexivity || assumption).
  - bind_as H t1 s1 E1. rewrite (tri_required_built nm s Ht) in E1.
    injection E1 as <- <-.
    bind_as H tr s3 E3. apply lift_val in E3. destruct E3 as [_ ->].
    bind_as H u s4 E4. injection E4 as _ <-.
    bind_as H c0 s5 E5. apply lift_val in E5. destruct E5 as [_ ->].
    bind_as H r s6 E6. apply lift_val in E6. destruct E6 as [Hadd ->].
    bind_as H u' s7 E7. injection E7 as _ <-.
    unfold ret in H. injection H as Ha Hb. subst toadd s2.
    exists tr, (Some c0), r. simpl. rewrite ledger_get_set.
    repeat split; (reflexivity || assumption).
Qed.

(** A pending point funds the sub-cells its insertion creates. *)
Lemma tell_pending_in_funds p simpl (s s' : LearnerND svc) t :
  tell_pending_in nm p simpl s = (Val tt, s') ->
  _tri s = Some t ->
  tri_point_in_simplex svc t p simpl = true ->
  exists tr0 hint st deleted toadd l d,
    add_point svc tr0 p hint None = Val (st, (deleted, toadd))
    /\ dict_get simplex_eqb (_subtriangulations s') simpl = Some st
    /\ dict_get simplex_eqb (_losses s') simpl = Some l
    /\ _losses s' = _losses s
    /\ pydiv l (tri_volume svc t simpl) = Val d
    /\ forall c, In c toadd ->
         In (mk_entry (- (tri_volume svc st c * d))%Q simpl (Some c))
            (_losses_combined s').
Proof.
  intros H Ht Hin. unfold tell_pending_in in H.
  bind_as H t0 s0 E0. rewrite (tri_required_built nm s Ht) in E0.
  injection E0 as <- <-.
  rewrite Hin in H. cbn [negb] in H.
  bind_as H s1 s1' E1. injection E1 as <- <-.
  bind_as H toadd s2 E2.
  destruct (subtriangulation_takes_point p simpl s eq_refl Ht E2)
    as [tr0 [hint [[st [deleted toadd']] [Hadd [-> [Hsub [Ht2 [Hl2 Hh2]]]]]]]].
  cbn [fst snd] in *.
  bind_as H s3 s3' E3. injection E3 as <- <-.
  bind_as H l s4 E4. apply lift_val in E4. destruct E4 as [Hl ->].
  bind_as H t5 s5 E5. rewrite (tri_required_built nm s2 Ht2) in E5.
  injection E5 as <- <-.
  bind_as H d s6 E6. apply lift_val in E6. destruct E6 as [Hd ->].
  bind_as H s7 s7' E7. injection E7 as <- <-.
  bind_as H st' s8 E8. apply lift_val in E8. destruct E8 as [Hst ->].
  rewrite Hsub in Hst. injection Hst as <-.
  apply push_sublosses_val in H. destruct H as [Hc [_ [_ [B2 B3]]]].
  exists tr0, hint, st, deleted, toadd', l, d.
  split; [exact Hadd |]. split; [rewrite B3; exact Hsub |].
  assert (Hl' : dict_get simplex_eqb (_losses s2) simpl = Some l).
  { destruct (dict_get simplex_eqb (_losses s2) simpl); [congruence | discriminate]. }
  split; [rewrite B2; exact Hl' |]. split; [congruence |].
  split; [exact Hd | exact Hc].
Qed.

End ApportioningPending.



(** ** Resolving a batch in another order *)

Lemma dict_get_set_eqb V (d : list (Point * V)) p q v :
  point_eqb q p = true ->
  dict_get point_eqb (dict_set point_eqb d p v) q = Some v.
Proof.
  intro H. induction d as [| [k w] d IH]; simpl.
  - rewrite H. reflexivity.
  - destruct (point_eqb p k) eqn:Hp; simpl.
    + rewrite (point_eqb_trans _ _ _ H Hp). reflexivity.
    + destruct (point_eqb q k) eqn:Hq; [| exact IH].
      rewrite point_eqb_sym in H.
      rewrite (point_eqb_trans _ _ _ H Hq) in Hp. discriminate.
Qed.

Lemma set_discard_filter l p :
  set_discard point_eqb l p = filter (fun k => negb (point_eqb p k)) l.
Proof.
  induction l as [| k l IH]; simpl; [reflexivity |].
  destruct (point_eqb p k); simpl; rewrite IH; reflexivity.
Qed.

Lemma discard_all_filter (batch : list (Point * value)) : forall l,
  fold_left (fun P pv => set_discard point_eqb P (fst pv)) batch l
  = filter (fun k => forallb (fun pv => negb (point_eqb (fst pv) k)) batch) l.
Proof.
  induction batch as [| [p y] batch IH]; intro l; simpl.
  - symmetry. apply filter_all_true. reflexivity.
  - rewrite IH, set_discard_filter. clear IH.
    induction l as [| k l IHl]; simpl; [reflexivity |].
    destruct (point_eqb p k); simpl; [exact IHl |].
    destruct (forallb _ batch); simpl; rewrite IHl; reflexivity.
Qed.

Lemma forallb_rev A (f : A -> bool) l : forallb f (rev l) = forallb f l.
Proof.
  induction l as [| x l IH]; simpl; [reflexivity |].
  rewrite forallb_app, IH. simpl. rewrite andb_true_r. apply andb_comm.
Qed.

Lemma find_app A (f : A -> bool) l1 l2 :
  find f (l1 ++ l2) = match find f l1 with Some x => Some x | None => find f l2 end.
Proof.
  induction l1 as [| x l1 IH]; simpl; [reflexivity |].
  destruct (f x); [reflexivity | exact IH].
Qed.

Lemma Distinct_no_second_match (batch : list (Point * value)) p y q :
  Distinct (map fst ((p, y) :: batch)) ->
  point_eqb q p = true ->
  find (fun pv => point_eqb q (fst pv)) batch = None.
Proof.
  intros Hd Hq. inversion Hd as [| p' l Hp Hl]; subst.
  destruct (find _ batch) as [[p2 y2] |] eqn:Hf; [| reflexivity].
  apply find_some in Hf. destruct Hf as [Hin Hq2]. simpl in Hq2.
  assert (Hin' : In p2 (map fst batch)) by (apply in_map_iff; exists (p2, y2); auto).
  specialize (Hp p2 Hin').
  rewrite point_eqb_sym in Hq2.
  rewrite (point_eqb_trans _ _ _ Hq2 Hq) in Hp. discriminate.
Qed.

Lemma Distinct_tail p l : Distinct (p :: l) -> Distinct l.
Proof. inversion 1. assumption. Qed.

Lemma find_rev_distinct (batch : list (Point * value)) q :
  Distinct (map fst batch) ->
  find (fun pv => point_eqb q (fst pv)) (rev batch)
  = find (fun pv => point_eqb q (fst pv)) batch.
Proof.
  induction batch as [| [p y] batch IH]; intro Hd; [reflexivity |].
  simpl rev. rewrite find_app, (IH (Distinct_tail Hd)). simpl.
  destruct (point_eqb q p) eqn:Hq.
  - rewrite (@Distinct_no_second_match batch p y q Hd Hq). reflexivity.
  - destruct (find _ batch); reflexivity.
Qed.

Lemma store_all_lookup (batch : list (Point * value)) q :
  Distinct (map fst batch) ->
  forall d,
  dict_get point_eqb
    (fold_left (fun d pv => dict_set point_eqb d (fst pv) (snd pv)) batch d) q
  = match find (fun pv => point_eqb q (fst pv)) batch with
    | Some pv => Some (snd pv)
    | None => dict_get point_eqb d q
    end.
Proof.
  induction batch as [| [p y] batch IH]; intros Hd d; [reflexivity |].
  simpl. rewrite (IH (Distinct_tail Hd)).
  destruct (point_eqb q p) eqn:Hq.
  - rewrite (@Distinct_no_second_match batch p y q Hd Hq).
    apply dict_get_set_eqb. exact Hq.
  - destruct (find _ batch); [reflexivity |].
    apply dict_get_set_other. exact Hq.
Qed.

Lemma store_all_rev (batch : list (Point * value)) q d :
  Distinct (map fst batch) ->
  dict_get point_eqb
    (fold_left (fun d pv => dict_set point_eqb d (fst pv) (snd pv)) (rev batch) d) q
  = dict_get point_eqb
      (fold_left (fun d pv => dict_set point_eqb d (fst pv) (snd pv)) batch d) q.
Proof.
  intro Hd.
  assert (Hr : Distinct (map fst (rev batch))).
  { clear q d. induction batch as [| [p y] batch IH]; [constructor |].
    simpl. rewrite map_app. simpl. inversion Hd as [| p' l Hp Hl]; subst.
    apply Distinct_app; [apply IH; exact Hl | constructor; [intros q [] | constructor] |].
    intros a b Ha [<- | []].
    rewrite map_rev in Ha. rewrite <- in_rev in Ha.
    rewrite point_eqb_sym. apply Hp. exact Ha. }
  rewrite (@store_all_lookup _ q Hr), (@store_all_lookup _ q Hd), find_rev_distinct by exact Hd.
  reflexivity.
Qed.

Section BatchResolution.
Variable svc : Service.
Variable nm : Numerics.
Variable kernel : Kernel.
Variable loss_per_simplex : list Point -> list value -> outcome Q.

Lemma tell_store_effect (s : LearnerND svc) p y :
  length p = length (_scale_matrix s) ->
  tell_store p y s
  = (Val tt,
     set_data (dict_set point_eqb (data s) p y)
       (set_point_tree (_point_tree s ++ [(npoints s, mat_vec (_scale_matrix s) p)])
          (set_pending (set_discard point_eqb (_pending s) p) s))).
Proof.
  intro Hlen. unfold tell_store, bind, modify, get, ret. simpl.
  apply Nat.eqb_eq in Hlen. rewrite Hlen. reflexivity.
Qed.

Lemma tell_triangulate_keeps_samples p :
  respects (fun s s' : LearnerND svc =>
              data s' = data s /\ _pending s' = _pending s
              /\ _scale_matrix s' = _scale_matrix s)
           (tell_triangulate nm loss_per_simplex p).
Proof.
  apply respects_tell_triangulate;
    try (match goal with |- respects _ (tri _) => apply respects_tri_setter end);
    try (simpl; intros; repeat split; reflexivity).
  all: intros s1 s2 s3 [A1 [A2 A3]] [B1 [B2 B3]]; repeat split; congruence.
Qed.

Lemma tell_effect (s : LearnerND svc) p y :
  in_data s p = false ->
  length p = length (_scale_matrix s) ->
  data (snd (tell nm loss_per_simplex p (Some y) s)) = dict_set point_eqb (data s) p y
  /\ _pending (snd (tell nm loss_per_simplex p (Some y) s))
     = set_discard point_eqb (_pending s) p
  /\ _scale_matrix (snd (tell nm loss_per_simplex p (Some y) s)) = _scale_matrix s.
Proof.
  intros Hin Hlen. rewrite (tell_new_point nm loss_per_simplex s p y Hin).
  unfold bind. rewrite tell_store_effect by exact Hlen.
  match goal with
  | |- context [tell_triangulate _ _ _ ?s1] =>
      pose proof (tell_triangulate_keeps_samples p s1) as [K1 [K2 K3]];
      destruct (tell_triangulate nm loss_per_simplex p s1) as [[[] | e] s2]
  end; cbn [snd] in *; simpl in K1, K2, K3; auto.
Qed.

Lemma run_tells (batch : list (Point * value)) : forall s : LearnerND svc,
  Distinct (map fst batch) ->
  (forall pv, In pv batch ->
     in_data s (fst pv) = false /\ length (fst pv) = length (_scale_matrix s)) ->
  data (snd (run nm kernel loss_per_simplex (tells batch) s))
  = fold_left (fun d pv => dict_set point_eqb d (fst pv) (snd pv)) batch (data s)
  /\ _pending (snd (run nm kernel loss_per_simplex (tells batch) s))
     = fold_left (fun P pv => set_discard point_eqb P (fst pv)) batch (_pending s).
Proof.
  induction batch as [| [p y] batch IH]; intros s Hd Hnew; [split; reflexivity |].
  destruct (Hnew (p, y) (or_introl eq_refl)) as [Hin Hlen]. simpl in Hin, Hlen.
  destruct (tell_effect s p y Hin Hlen) as [E1 [E2 E3]].
  cbn [tells map run fst snd perform].
  assert (Hs : snd ((tell nm loss_per_simplex p (Some y) ;;; ret Done) s)
               = snd (tell nm loss_per_simplex p (Some y) s)).
  { unfold bind. destruct (tell nm loss_per_simplex p (Some y) s) as [[[] | e] s1];
      reflexivity. }
  destruct ((tell nm loss_per_simplex p (Some y) ;;; ret Done) s) as [a s1].
  cbn [snd] in Hs. subst s1.
  set (s1 := snd (tell nm loss_per_simplex p (Some y) s)) in *.
  specialize (IH s1 (Distinct_tail Hd)).
  assert (Hnew1 : forall pv, In pv batch ->
            in_data s1 (fst pv) = false /\ length (fst pv) = length (_scale_matrix s1)).
  { intros pv Hpv. destruct (Hnew pv (or_intror Hpv)) as [Hq Hl].
    split; [| rewrite E3; exact Hl].
    unfold in_data, dict_mem in *. rewrite E1.
    rewrite dict_get_set_other; [exact Hq |].
    inversion Hd as [| p' l Hp Hl']; subst. apply Hp.
    apply in_map_iff. exists pv. auto. }
  destruct (IH Hnew1) as [I1 I2].
  fold (tells batch).
  destruct (run nm kernel loss_per_simplex (tells batch) s1) as [answers s2].
  cbn [snd] in *. rewrite I1, I2, E1, E2. split; reflexivity.
Qed.

End BatchResolution.

Lemma rev_new_points svc (s : LearnerND svc) (batch : list (Point * value)) :
  (forall pv, In pv batch ->
     in_data s (fst pv) = false /\ length (fst pv) = length (_scale_matrix s)) ->
  forall pv, In pv (rev batch) ->
    in_data s (fst pv) = false /\ length (fst pv) = length (_scale_matrix s).
Proof. intros H pv Hpv. apply H. apply in_rev. exact Hpv. Qed.

Lemma Distinct_rev_keys (batch : list (Point * value)) :
  Distinct (map fst batch) -> Distinct (map fst (rev batch)).
Proof.
  induction batch as [| [p y] batch IH]; intro Hd; [constructor |].
  simpl. rewrite map_app. simpl. inversion Hd as [| p' l Hp Hl]; subst.
  apply Distinct_app; [apply IH; exact Hl | constructor; [intros q [] | constructor] |].
  intros a b Ha [<- | []].
  rewrite map_rev in Ha. rewrite <- in_rev in Ha.
  rewrite point_eqb_sym. apply Hp. exact Ha.
Qed.




(** * Further properties of the engine *)

(** ** Construction *)



(** ** The shape of what [ask] returns *)

Lemma ask_loop_length svc nm kernel n : forall (s : LearnerND svc) pairs s',
  ask_loop nm kernel n s = (Val pairs, s') -> length pairs = n.
Proof.
  induction n as [| n IH]; intros s pairs s' H; cbn [ask_loop] in H.
  - injection H as <- _. reflexivity.
  - bind_as H x s1 E1. bind_as H xs s2 E2. unfold ret in H.
    injection H as Hp _. subst pairs.
    simpl. f_equal. eapply IH. exact E2.
Qed.

(** X2.  When [ask(n)] returns, it returns [n] points and [n] priorities
    and [n] is at least one; [ask(0)] raises [ValueError] and leaves the
    learner as it was. *)
Theorem ask_returns_n_points svc nm kernel (s : LearnerND svc) :
  (forall n xs priorities s',
      ask nm kernel n s = (Val (xs, priorities), s') ->
      length xs = n /\ length priorities = n /\ 1 <= n)
  /\ ask nm kernel 0 s = (Exn ValueError, s).
Proof.
  split; [| reflexivity].
  intros n xs priorities s' H. unfold ask in H.
  bind_as H pairs s1 E1. apply ask_loop_length in E1.
  destruct pairs as [| x pairs]; [discriminate |].
  unfold ret in H. injection H as Hx Hp _. subst xs priorities.
  simpl in *. rewrite ?length_map. lia.
Qed.

(** The statement at work: the two points asked over (0, 4) after three
    samples. *)
Lemma ask_returns_n_points_witness :
  ask Line.numerics Geometry.kernel 2 Scenario.told_042
  = (Val ([[(32 # 32)%Q]; [(96 # 32)%Q]], [Finite 2; Finite 2]), Scenario.two_pending)
  /\ length [[(32 # 32)%Q]; [(96 # 32)%Q]] = 2
  /\ length [Finite 2; Finite 2] = 2.
Proof.
  assert (E : ask Line.numerics Geometry.kernel 2 Scenario.told_042
              = (Val ([[(32 # 32)%Q]; [(96 # 32)%Q]], [Finite 2; Finite 2]),
                 Scenario.two_pending)) by reflexivity.
  split; [exact E |].
  destruct (proj1 (ask_returns_n_points Line.numerics Geometry.kernel
                     Scenario.told_042) 2 _ _ _ E) as [H1 [H2 _]].
  split; assumption.
Defined.

(** ** Forgetting the pending points *)

(** X3.  [remove_unfinished()] empties the pending set, the
    sub-triangulations and the pending-to-home map and leaves the samples,
    the triangulation, the loss ledger and the heap alone; afterwards a
    corner is available to [ask] exactly when some corner is unsampled. *)
Theorem remove_unfinished_resets_pending svc (s : LearnerND svc) :
  exists s',
    remove_unfinished s = (Val tt, s')
    /\ _pending s' = [] /\ _subtriangulations s' = [] /\ _pending_to_simplex s' = []
    /\ data s' = data s /\ _tri s' = _tri s /\ _losses s' = _losses s
    /\ _losses_combined s' = _losses_combined s
    /\ _bounds_available s' = negb (bounds_are_done s).
Proof.
  eexists. split; [reflexivity |]. simpl. repeat split.
  unfold _bounds_available, bounds_are_done, in_pending, in_data. simpl.
  induction (_bounds_points s) as [| p l IH]; simpl; [reflexivity |].
  rewrite IH. destruct (dict_mem point_eqb (data s) p); reflexivity.
Qed.

(** ** Telling a value *)

Lemma set_mem_discard l p : set_mem point_eqb (set_discard point_eqb l p) p = false.
Proof.
  induction l as [| k l IH]; simpl; [reflexivity |].
  destruct (point_eqb p k) eqn:E; simpl; [exact IH |]. rewrite E. exact IH.
Qed.

(** X4.  [tell(p, value)] for a new point whose length fits the bounds
    moves it from pending to sampled: however the call ends, the point is
    a key of the sample data with that value and is no longer in the
    pending set. *)
Theorem tell_moves_point_to_samples svc nm lps (s : LearnerND svc) p y :
  in_data s p = false ->
  length p = length (_scale_matrix s) ->
  in_data (snd (tell nm lps p (Some y) s)) p = true
  /\ dict_get point_eqb (data (snd (tell nm lps p (Some y) s))) p = Some y
  /\ in_pending (snd (tell nm lps p (Some y) s)) p = false.
Proof.
  intros Hin Hlen.
  destruct (tell_effect nm lps s p y Hin Hlen) as [E1 [E2 _]].
  unfold in_data, dict_mem, in_pending. rewrite E1, E2, dict_get_set_same.
  repeat split. apply set_mem_discard.
Qed.

(** The statement at work: over (0, 4) the pending point 1 is told. *)
Lemma tell_moves_point_to_samples_witness :
  in_pending Scenario.two_pending [1%Q] = true
  /\ in_data (snd (tell Line.numerics uniform_loss [1%Q] (Some (Scalar 0))
                        Scenario.two_pending)) [1%Q] = true
  /\ in_pending (snd (tell Line.numerics uniform_loss [1%Q] (Some (Scalar 0))
                           Scenario.two_pending)) [1%Q] = false.
Proof.
  split; [reflexivity |].
  destruct (tell_moves_point_to_samples Line.numerics uniform_loss
              Scenario.two_pending [1%Q] (Scalar 0)) as [H1 [_ H2]];
    [reflexivity | reflexivity | auto].
Defined.

(** X5.  [tell(p, value)] for a new point whose length is not that of
    the bounds raises [ValueError] in [np.dot]: the point has already left
    the pending set, and the sample data, the spatial index, the
    triangulation and the ledger are unchanged. *)
Theorem tell_rejects_wrong_length svc nm lps (s : LearnerND svc) p y :
  in_data s p = false ->
  length p <> length (_scale_matrix s) ->
  exists s',
    tell nm lps p (Some y) s = (Exn ValueError, s')
    /\ data s' = data s /\ _point_tree s' = _point_tree s
    /\ _tri s' = _tri s /\ _losses s' = _losses s
    /\ _pending s' = set_discard point_eqb (_pending s) p.
Proof.
  intros Hin Hlen. rewrite (tell_new_point nm lps s p y Hin).
  unfold tell_store, bind, modify, get. simpl.
  apply Nat.eqb_neq in Hlen. rewrite Hlen. simpl.
  eexists. split; [reflexivity |]. simpl. repeat split.
Qed.

(** The statement at work: a point of the plane told to a learner over
    an interval. *)
Lemma tell_rejects_wrong_length_witness :
  fst (tell Line.numerics uniform_loss [1%Q; 1%Q] (Some (Scalar 0)) Scenario.told_0)
  = Exn ValueError.
Proof.
  destruct (tell_rejects_wrong_length Line.numerics uniform_loss
              Scenario.told_0 [1%Q; 1%Q] (Scalar 0)) as [s' [H _]].
  - reflexivity.
  - simpl. discriminate.
  - rewrite H. reflexivity.
Defined.

(** ** The pending set after [ask] *)

Section PendingAfterAsk.
Variable svc : Service.
Variable nm : Numerics.
Variable kernel : Kernel.

Ltac pending_frame :=
  try (match goal with |- respects _ (tri _) => apply respects_tri_setter end);
  try (unfold same_pending; simpl; intros; reflexivity);
  try (unfold same_pending; intros ? ? ? H1 H2; congruence).

Lemma tri_same_pending : respects (@same_pending svc) (tri nm).
Proof. apply respects_tri_setter; pending_frame. Qed.

Lemma tri_required_same_pending : respects (@same_pending svc) (tri_required nm).
Proof. apply respects_tri_required; pending_frame. Qed.

Lemma subdivide_for_same_pending p sx :
  respects (@same_pending svc) (subdivide_for nm p sx).
Proof. apply respects_subdivide_for; pending_frame. Qed.

Lemma pop_loop_same_pending fuel : respects (@same_pending svc) (pop_loop nm fuel).
Proof. apply respects_pop_loop; pending_frame. Qed.

Lemma tell_pending_exact p sx (s : LearnerND svc) :
  _pending (snd (_tell_pending nm p sx s)) = set_add point_eqb (_pending s) p.
Proof.
  unfold _tell_pending, bind at 1, modify. fold (mark_pending p s).
  pose proof (subdivide_for_same_pending p sx (mark_pending p s)) as H.
  destruct (subdivide_for nm p sx (mark_pending p s)) as [[[] | e] s1]; exact H.
Qed.

Lemma tell_pending_exact_at p sx (s : LearnerND svc) o s' :
  _tell_pending nm p sx s = (o, s') ->
  _pending s' = set_add point_eqb (_pending s) p.
Proof. intro E. pose proof (tell_pending_exact p sx s) as H. rewrite E in H. exact H. Qed.

Ltac frame_at L E K :=
  match type of E with
  | _ ?s0 = (_, _) =>
      pose proof (L s0) as K; rewrite E in K; cbn [snd] in K;
      unfold same_pending in K
  end.

Lemma ask1_pending (s : LearnerND svc) p pr s' :
  _ask nm kernel s = (Val (p, pr), s') ->
  _pending s' = set_add point_eqb (_pending s) p.
Proof.
  unfold _ask. intro H. bind_as H s0 s0' E0. injection E0 as <- <-.
  destruct (_bounds_available s).
  - unfold _ask_bound_point in H. bind_as H s1 s1' E1. injection E1 as <- <-.
    destruct (filter _ _) as [| c rest]; [discriminate |].
    bind_as H u s2 E2. unfold ret in H. injection H as Hp _ Hs. subst c s2.
    eapply tell_pending_exact_at. exact E2.
  - bind_as H t s1 E1. frame_at tri_same_pending E1 P1.
    destruct t as [t |].
    + unfold _ask_best_point, _pop_highest_existing_simplex in H.
      bind_as H s2 s2' E2. injection E2 as <- <-.
      bind_as H u3 s3 E3.
      assert (P3 : _pending s3 = _pending s1).
      { destruct (_bounds_available s1); [discriminate |]. injection E3 as _ <-.
        reflexivity. }
      bind_as H t4 s4 E4. frame_at tri_same_pending E4 P4.
      bind_as H u5 s5 E5.
      assert (P5 : _pending s5 = _pending s4).
      { destruct t4; [| discriminate]. injection E5 as _ <-. reflexivity. }
      bind_as H popped s6 E6.
      bind_as E6 s6a s6b E6a. injection E6a as <- <-.
      frame_at (pop_loop_same_pending (length (_losses_combined s5))) E6 P6.
      destruct popped as [[l simplex] subsimplex].
      bind_as H pts s7 E7.
      assert (P7 : _pending s7 = _pending s6).
      { destruct subsimplex.
        - bind_as E7 s7a s7b E7a. injection E7a as <- <-.
          destruct (dict_get simplex_eqb (_subtriangulations s6) simplex);
            [| discriminate].
          injection E7 as _ <-. reflexivity.
        - bind_as E7 t7 s7a E7a. frame_at tri_required_same_pending E7a P7a.
          injection E7 as _ <-. exact P7a. }
      bind_as H s8 s8' E8. injection E8 as <- <-.
      bind_as H point_new s9 E9. apply lift_val in E9. destruct E9 as [_ ->].
      bind_as H u10 s10 E10. injection E10 as _ <-.
      bind_as H u11 s11 E11. unfold ret in H. injection H as Hp _ Hs.
      subst point_new s11.
      apply tell_pending_exact_at in E11. simpl in E11. congruence.
    + unfold _ask_point_without_known_simplices in H.
      bind_as H s2 s2' E2. injection E2 as <- <-.
      destruct (_bounds_available s1); [discriminate |].
      bind_as H u3 s3 E3. injection E3 as _ <-.
      bind_as H u4 s4 E4. unfold ret in H. injection H as Hp _ Hs. subst p s4.
      apply tell_pending_exact_at in E4. simpl in E4. congruence.
Qed.

Lemma ask_loop_pending n : forall (s : LearnerND svc) pairs s',
  ask_loop nm kernel n s = (Val pairs, s') ->
  _pending s' = set_update point_eqb (_pending s) (map fst pairs).
Proof.
  induction n as [| n IH]; intros s pairs s' H; cbn [ask_loop] in H.
  - injection H as <- <-. reflexivity.
  - bind_as H x s1 E1. bind_as H xs s2 E2. unfold ret in H.
    injection H as Hp Hs. subst pairs s2.
    destruct x as [p pr]. apply ask1_pending in E1. apply IH in E2.
    rewrite E2, E1. reflexivity.
Qed.

End PendingAfterAsk.

(** X6.  A selection changes the pending set by exactly the point it
    returns: after [_ask] the pending set is the old one with the returned
    point added, and after [ask(n)] it is the old one with the returned
    points added in order. *)
Theorem ask_adds_the_returned_points svc nm kernel (s : LearnerND svc) :
  (forall p pr s',
      _ask nm kernel s = (Val (p, pr), s') ->
      _pending s' = set_add point_eqb (_pending s) p)
  /\ (forall n xs priorities s',
         ask nm kernel n s = (Val (xs, priorities), s') ->
         _pending s' = set_update point_eqb (_pending s) xs).
Proof.
  split.
  - intros p pr s'. apply ask1_pending.
  - intros n xs priorities s' H. unfold ask in H.
    bind_as H pairs s1 E1. apply ask_loop_pending in E1.
    destruct pairs as [| x pairs]; [discriminate |].
    unfold ret in H. injection H as Hx _ Hs. subst xs s1. exact E1.
Qed.

(** The statement at work: the two points asked over (0, 4) are the
    pending set afterwards. *)
Lemma ask_adds_the_returned_points_witness :
  _pending Scenario.told_042 = []
  /\ _pending Scenario.two_pending = [[(32 # 32)%Q]; [(96 # 32)%Q]].
Proof.
  split; [reflexivity |].
  rewrite (proj2 (ask_adds_the_returned_points Line.numerics Geometry.kernel
                    Scenario.told_042)
             2 [[(32 # 32)%Q]; [(96 # 32)%Q]] [Finite 2; Finite 2]
             Scenario.two_pending eq_refl).
  reflexivity.
Defined.

(** ** The first triangulation *)

Lemma tell_store_wrong_length svc (s : LearnerND svc) p y :
  length p <> length (_scale_matrix s) ->
  tell_store p y s
  = (Exn ValueError, set_pending (set_discard point_eqb (_pending s) p) s).
Proof.
  intro Hlen. unfold tell_store, bind, modify, get. simpl.
  apply Nat.eqb_neq in Hlen. rewrite Hlen. reflexivity.
Qed.


Section FirstTriangulation.
Variable svc : Service.
Variable nm : Numerics.
Variable kernel : Kernel.
Variable loss_per_simplex : list Point -> list value -> outcome Q.

Lemma tri_same_queue : respects (@same_queue svc) (tri nm).
Proof.
  apply respects_tri_setter.
  - intro s. unfold same_queue. auto.
  - unfold same_queue. intros s1 s2 s3 [A1 [A2 A3]] [B1 [B2 B3]].
    repeat split; congruence.
  - intros. unfold same_queue. simpl. auto.
Qed.

Lemma tell_triangulate_without_tri p (s : LearnerND svc) :
  _tri s = None ->
  same_queue s (snd (tell_triangulate nm loss_per_simplex p s)).
Proof.
  intro Hn. unfold tell_triangulate, bind.
  pose proof (tri_same_queue s) as Hq.
  destruct (tri nm s) as [[[t |] | e] s1] eqn:E; cbn [snd] in *.
  - pose proof (tri_none_result nm s Hn E). discriminate.
  - exact Hq.
  - exact Hq.
Qed.

End FirstTriangulation.

(** X7.  A [tell] on a learner that has no triangulation never touches
    the loss ledger, the heap or the sub-triangulations, not even when the
    new sample completes the first simplex: the access to [self.tri] that
    builds the triangulation yields [None], so [update_losses] is skipped
    and the first simplices get no loss. *)
Theorem first_simplices_get_no_loss svc nm lps (s : LearnerND svc) p v :
  _tri s = None ->
  _losses (snd (tell nm lps p v s)) = _losses s
  /\ _losses_combined (snd (tell nm lps p v s)) = _losses_combined s
  /\ _subtriangulations (snd (tell nm lps p v s)) = _subtriangulations s
  /\ (forall r s', tri nm s = (Val r, s') -> r = None).
Proof.
  intro Hn.
  assert (Hq : same_queue s (snd (tell nm lps p v s))).
  { unfold tell. unfold bind at 1. unfold print, modify.
    set (s0 := set_stdout (stdout s ++ [PrintedPoint p]) s).
    unfold bind at 1. unfold get.
    destruct (in_data s0 p); [unfold same_queue; simpl; auto |].
    destruct v as [y |].
    - unfold bind.
      destruct (Nat.eq_dec (length p) (length (_scale_matrix s0))) as [Hlen | Hlen].
      + rewrite (tell_store_effect s0 p y Hlen).
        match goal with
        | |- context [tell_triangulate _ _ _ ?s1] =>
            destruct (tell_triangulate_without_tri nm lps p s1 Hn) as [B1 [B2 B3]]
        end.
        unfold same_queue. simpl in B1, B2, B3. repeat split; assumption.
      + rewrite (tell_store_wrong_length s0 p y Hlen). unfold same_queue. simpl. auto.
    - unfold _tell_pending, bind at 1, modify.
      set (s1 := set_pending _ s0).
      assert (Hn1 : _tri s1 = None) by exact Hn.
      unfold subdivide_for, bind.
      pose proof (tri_same_queue nm s1) as Hq.
      destruct (tri nm s1) as [[[t |] | e] s2] eqn:E; cbn [snd] in *.
      + pose proof (tri_none_result nm s1 Hn1 E). discriminate.
      + exact Hq.
      + exact Hq. }
  destruct Hq as [Q1 [Q2 Q3]]. repeat split; try assumption.
  intros r s'. apply tri_none_result. exact Hn.
Qed.

(** The statement at work: over (0, 4), telling the second corner builds
    the triangulation and leaves ledger and heap empty. *)
Lemma first_simplices_get_no_loss_witness :
  snd (tell Line.numerics uniform_loss [4%Q] (Some (Scalar 0)) Scenario.told_0)
  = Scenario.told_04
  /\ _tri Scenario.told_04 = Some (Line.mk [[0%Q]; [4%Q]] [[0; 1]])
  /\ _losses Scenario.told_04 = [] /\ _losses_combined Scenario.told_04 = [].
Proof.
  assert (E : snd (tell Line.numerics uniform_loss [4%Q] (Some (Scalar 0))
                        Scenario.told_0) = Scenario.told_04) by reflexivity.
  split; [exact E |]. split; [reflexivity |].
  destruct (first_simplices_get_no_loss Line.numerics uniform_loss
              Scenario.told_0 [4%Q] (Some (Scalar 0)) eq_refl) as [H1 [H2 _]].
  rewrite E in H1, H2. split; assumption.
Defined.

(** X8.  Once every corner is sampled or pending and a triangulation
    exists, [ask] on an empty heap raises [IndexError] and changes
    nothing: this is the state right after the first triangulation was
    built. *)
Theorem ask_on_empty_heap_raises svc nm kernel (s : LearnerND svc) t n :
  _bounds_available s = false ->
  _tri s = Some t ->
  _losses_combined s = [] ->
  _ask nm kernel s = (Exn IndexError, s)
  /\ ask nm kernel (S n) s = (Exn IndexError, s).
Proof.
  intros Hav Ht Hh.
  assert (Epop : _pop_highest_existing_simplex nm s = (Exn IndexError, s)).
  { unfold _pop_highest_existing_simplex.
    erewrite bind_of_val by reflexivity. rewrite Hh. cbn [length pop_loop].
    erewrite bind_of_val by reflexivity. rewrite Hh.
    apply bind_of_exn. reflexivity. }
  assert (E : _ask nm kernel s = (Exn IndexError, s)).
  { unfold _ask. erewrite bind_of_val by reflexivity. rewrite Hav.
    erewrite bind_of_val by (apply tri_built; exact Ht).
    unfold _ask_best_point. erewrite bind_of_val by reflexivity. rewrite Hav.
    erewrite bind_of_val by reflexivity.
    erewrite bind_of_val by (apply tri_built; exact Ht).
    erewrite bind_of_val by reflexivity.
    apply bind_of_exn. exact Epop. }
  split; [exact E |].
  unfold ask. apply bind_of_exn. cbn [ask_loop]. apply bind_of_exn. exact E.
Qed.

(** The statement at work: over (0, 4) with exactly the two corners
    sampled. *)
Lemma ask_on_empty_heap_raises_witness :
  ask Line.numerics Geometry.kernel 1 Scenario.told_04
  = (Exn IndexError, Scenario.told_04).
Proof.
  apply (proj2 (ask_on_empty_heap_raises Line.numerics Geometry.kernel
                  Scenario.told_04 (t := Line.mk [[0%Q]; [4%Q]] [[0; 1]]) 0
                  eq_refl eq_refl eq_refl)).
Defined.

(** ** Samples are kept *)

Lemma dict_get_eqb V (d : list (Point * V)) p q :
  point_eqb q p = true -> dict_get point_eqb d q = dict_get point_eqb d p.
Proof.
  intro H. induction d as [| [k w] d IH]; simpl; [reflexivity |].
  destruct (point_eqb q k) eqn:Hq, (point_eqb p k) eqn:Hp; try reflexivity.
  - rewrite point_eqb_sym in H. rewrite (point_eqb_trans _ _ _ H Hq) in Hp. discriminate.
  - rewrite (point_eqb_trans _ _ _ H Hp) in Hq. discriminate.
  - exact IH.
Qed.


Section SamplesKept.
Variable svc : Service.
Variable nm : Numerics.
Variable kernel : Kernel.
Variable loss_per_simplex : list Point -> list value -> outcome Q.

Ltac data_frame :=
  try (match goal with |- respects _ (tri _) => apply respects_tri_setter end);
  try (unfold same_data; simpl; intros; reflexivity);
  try (unfold same_data; intros ? ? ? H1 H2; congruence).

Lemma tell_pending_same_data p sx : respects (@same_data svc) (_tell_pending nm p sx).
Proof. apply respects_tell_pending; data_frame. Qed.

Lemma tell_triangulate_same_data p :
  respects (@same_data svc) (tell_triangulate nm loss_per_simplex p).
Proof. apply respects_tell_triangulate; data_frame. Qed.

Lemma ask_same_data n : respects (@same_data svc) (ask nm kernel n).
Proof. apply respects_ask; data_frame. Qed.

Lemma loss_same_data : respects (@same_data svc) (loss nm).
Proof. apply respects_loss; data_frame. Qed.

Lemma tell_keeps_samples p v (s : LearnerND svc) :
  keeps_samples s (snd (tell nm loss_per_simplex p v s)).
Proof.
  unfold tell. unfold bind at 1. unfold print, modify.
  set (s0 := set_stdout (stdout s ++ [PrintedPoint p]) s).
  unfold bind at 1. unfold get.
  destruct (in_data s0 p) eqn:Hin; [intros q w H; exact H |].
  destruct v as [y |].
  - unfold bind.
    destruct (Nat.eq_dec (length p) (length (_scale_matrix s0))) as [Hlen | Hlen].
    + rewrite (tell_store_effect s0 p y Hlen).
      match goal with
      | |- context [tell_triangulate _ _ _ ?s1] =>
          pose proof (tell_triangulate_same_data p s1) as H2;
          destruct (tell_triangulate nm loss_per_simplex p s1) as [[u | e] s2]
      end; unfold same_data in H2; cbn [snd] in *; simpl in H2;
        intros q w Hq; rewrite H2;
        (rewrite dict_get_set_other; [exact Hq |]);
        (destruct (point_eqb q p) eqn:E; [| reflexivity]);
        rewrite (dict_get_eqb (data s) p q E) in Hq;
        unfold in_data, dict_mem in Hin; simpl in Hin; rewrite Hq in Hin;
        discriminate.
    + rewrite (tell_store_wrong_length s0 p y Hlen). intros q w H. exact H.
  - pose proof (tell_pending_same_data p None s0) as H. unfold same_data in H.
    intros q w Hq. rewrite H. exact Hq.
Qed.

Lemma perform_keeps_samples c (s : LearnerND svc) :
  keeps_samples s (snd (perform nm kernel loss_per_simplex c s)).
Proof.
  destruct c as [p v | n | |]; cbn [perform].
  - pose proof (tell_keeps_samples p v s) as H. unfold bind.
    destruct (tell nm loss_per_simplex p v s) as [[u | e] s1]; exact H.
  - pose proof (ask_same_data n s) as H. unfold same_data in H. unfold bind.
    destruct (ask nm kernel n s) as [[r | e] s1]; unfold ret; cbn [snd] in *;
      intros q w Hq; rewrite H; exact Hq.
  - pose proof (loss_same_data s) as H. unfold same_data in H. unfold bind.
    destruct (loss nm s) as [[r | e] s1]; unfold ret; cbn [snd] in *;
      intros q w Hq; rewrite H; exact Hq.
  - intros q w Hq. exact Hq.
Qed.

End SamplesKept.

(** X9.  Samples are never lost and never overwritten: over any sequence
    of [tell], [ask], [loss] and [remove_unfinished] calls, whether they
    return or raise, a sampled point keeps the value it was first told
    with. *)
Theorem samples_are_kept svc nm kernel lps calls : forall (s : LearnerND svc) q v,
  dict_get point_eqb (data s) q = Some v ->
  dict_get point_eqb (data (snd (run nm kernel lps calls s))) q = Some v.
Proof.
  induction calls as [| c rest IH]; intros s q v H; [exact H |].
  cbn [run].
  pose proof (perform_keeps_samples nm kernel lps c s) as Hc.
  destruct (perform nm kernel lps c s) as [a s1]. cbn [snd] in Hc.
  specialize (IH s1 q v (Hc q v H)).
  destruct (run nm kernel lps rest s1) as [answers s2]. exact IH.
Qed.

(** The statement at work: the sample at 1 survives a second value, an
    [ask], a reset and a [loss]. *)
Lemma samples_are_kept_witness :
  dict_get point_eqb
    (data (snd (run Line.numerics Geometry.kernel uniform_loss
                    [Tell [1%Q] (Some (Scalar 7)); Ask 1; RemoveUnfinished; Loss]
                    Scenario.told_012))) [1%Q]
  = Some (Scalar 0).
Proof.
  apply samples_are_kept. reflexivity.
Defined.

(** ** Stale queue entries *)

Lemma siftdown_loop_length fuel : forall h startpos pos newitem h',
  siftdown_loop fuel h startpos pos newitem = Val h' -> length h' = length h.
Proof.
  induction fuel as [| fuel IH]; intros h startpos pos newitem h' H;
    cbn [siftdown_loop] in H.
  - injection H as <-. apply list_set_length.
  - destruct (startpos <? pos); [| injection H as <-; apply list_set_length].
    destruct (entry_lt newitem (nth ((pos - 1) / 2) h dummy_entry)) as [[|] | e];
      try discriminate; [| injection H as <-; apply list_set_length].
    rewrite (IH _ _ _ _ _ H). apply list_set_length.
Qed.

Lemma siftup_loop_length fuel : forall h pos h' pos',
  siftup_loop fuel h pos = Val (h', pos') -> length h' = length h.
Proof.
  induction fuel as [| fuel IH]; intros h pos h' pos' H; cbn [siftup_loop] in H.
  - injection H as <- _. reflexivity.
  - destruct (2 * pos + 1 <? length h); [| injection H as <- _; reflexivity].
    match type of H with
    | match ?pick with _ => _ end = _ => destruct pick as [c | e]
    end; [| discriminate].
    rewrite (IH _ _ _ _ H). apply list_set_length.
Qed.

(** [heappop] takes exactly one entry off the heap. *)
Lemma heappop_length h e h' :
  heappop h = Val (e, h') -> length h = S (length h').
Proof.
  unfold heappop. intro H.
  rewrite <- (length_rev h). destruct (rev h) as [| lastelt r]; [discriminate |].
  cbn [length]. f_equal. rewrite <- (length_rev r).
  destruct (rev r) as [| returnitem rest] eqn:Hr.
  - injection H as _ <-. reflexivity.
  - unfold siftup in H.
    destruct (siftup_loop (length (list_set (returnitem :: rest) 0 lastelt))
                          (list_set (returnitem :: rest) 0 lastelt) 0)
      as [[h1 pos1] | e1] eqn:Hup; [| discriminate].
    destruct (siftdown_loop (S pos1) h1 0 pos1
                (nth 0 (list_set (returnitem :: rest) 0 lastelt) dummy_entry))
      as [h2 | e2] eqn:Hdown; [| discriminate].
    injection H as _ <-.
    rewrite (siftdown_loop_length _ _ _ _ _ Hdown).
    rewrite (siftup_loop_length _ _ _ Hup).
    rewrite list_set_length. reflexivity.
Qed.

Section LivePops.
Variable svc : Service.
Variable nm : Numerics.

(** The rounds of [_pop_highest_existing_simplex] on a learner with a
    triangulation: what comes back passed one of the two membership tests,
    and only the queue changed, by at least one entry. *)
Lemma pop_loop_live fuel : forall (s : LearnerND svc) t l simplex subsimplex s',
  _tri s = Some t ->
  pop_loop nm fuel s = (Val (l, simplex, subsimplex), s') ->
  live_entry s' t simplex subsimplex
  /\ (0 <= l)%Q
  /\ s' = set_losses_combined (_losses_combined s') s
  /\ length (_losses_combined s') < length (_losses_combined s).
Proof.
  induction fuel as [| fuel IH]; intros s t l simplex subsimplex s' Ht H;
    cbn [pop_loop] in H.
  all: bind_as H s0 sa Hg; unfold get in Hg; injection Hg as <- <-.
  all: bind_as H popped sb Hp; apply lift_val in Hp; destruct Hp as [Hpop ->].
  all: destruct popped as [[loss0 home0 sub0] h1]; cbn [fst snd] in H.
  all: apply heappop_length in Hpop.
  all: bind_as H u sc Hmod; unfold modify in Hmod; injection Hmod as _ <-.
  all: set (s1 := set_losses_combined h1 s) in *.
  all: assert (Ht1 : _tri s1 = Some t) by exact Ht.
  all: pose proof (tri_required_built nm s1 Ht1) as Hreq.
  all: bind_as H whole sd Hw.
  all: assert (Hsd : sd = s1 /\ whole = match sub0 with Some _ => false | None =>
             existsb (simplex_eqb home0) (simplices svc t)
             && negb (dict_mem simplex_eqb (_subtriangulations s1) home0) end)
         by (destruct sub0;
             [ unfold ret in Hw; injection Hw as <- <-; split; reflexivity
             | unfold bind, get, ret in Hw; rewrite Hreq in Hw;
               injection Hw as <- <-; split; reflexivity ]).
  all: destruct Hsd as [-> Hwhole]; clear Hw.
  all: destruct whole.
  1, 3: destruct sub0; [discriminate Hwhole |];
        symmetry in Hwhole; apply andb_prop in Hwhole; destruct Hwhole as [Hin Hsub];
        apply negb_true_iff in Hsub;
        unfold ret in H; injection H as <- <- <- <-;
        repeat split;
        [ exact Hin | exact Hsub | apply Qabs_nonneg | simpl; lia ].
  all: clear Hwhole.
  all: bind_as H s2 se Hg; unfold get in Hg; injection Hg as <- <-.
  all: bind_as H part sf Hpart.
  all: assert (Hsf : sf = s1 /\ part = match dict_get simplex_eqb (_subtriangulations s1) home0 with
             | Some st => existsb (simplex_eqb home0) (simplices svc t)
                          && match sub0 with
                             | Some c => existsb (simplex_eqb c) (simplices svc st)
                             | None => false
                             end
             | None => false end)
         by (destruct (dict_get simplex_eqb (_subtriangulations s1) home0);
             [ unfold bind, ret in Hpart; rewrite Hreq in Hpart;
               injection Hpart as <- <-; split; reflexivity
             | unfold ret in Hpart; injection Hpart as <- <-; split; reflexivity ]).
  all: destruct Hsf as [-> Hp]; clear Hpart.
  all: destruct part.
  1, 3: destruct (dict_get simplex_eqb (_subtriangulations s1) home0) as [st |] eqn:Hst;
        [| discriminate Hp];
        symmetry in Hp; apply andb_prop in Hp; destruct Hp as [Hin Hsub];
        destruct sub0 as [c |]; [| discriminate Hsub];
        unfold ret in H; injection H as <- <- <- <-;
        repeat split;
        [ exact Hin | exists st; split; [exact Hst | exact Hsub]
        | apply Qabs_nonneg | simpl; lia ].
  - unfold raise in H. discriminate H.
  - destruct (IH s1 t l simplex subsimplex s' Ht1 H) as [Hl [Hq [Hs Hlen]]].
    repeat split; [apply Hl | apply Hl | exact Hq | rewrite Hs; reflexivity
                     | simpl in Hlen; lia].
Qed.

End LivePops.



(** ** The corners stay done *)

Lemma dict_mem_set V (d : list (Point * V)) p v q :
  dict_mem point_eqb d q = true ->
  dict_mem point_eqb (dict_set point_eqb d p v) q = true.
Proof.
  unfold dict_mem. intro H.
  destruct (point_eqb q p) eqn:E.
  - rewrite (@dict_get_set_eqb _ d p q v E). reflexivity.
  - rewrite (@dict_get_set_other _ d p q v E). exact H.
Qed.

Section CornersDone.
Variable svc : Service.
Variable nm : Numerics.
Variable kernel : Kernel.
Variable loss_per_simplex : list Point -> list value -> outcome Q.

Lemma run_keeps_corners calls (s : LearnerND svc) :
  corners_kept s (snd (run nm kernel loss_per_simplex calls s)).
Proof.
  apply respects_run;
    try (match goal with |- respects _ (tri _) => apply respects_tri_setter end);
    try (unfold corners_kept; simpl; intros; split; [reflexivity | intros; assumption]).
  all: try (unfold corners_kept; intros s1 s2 s3 [H1 H1'] [H2 H2']; split;
            [congruence | intros q Hq; apply H2', H1', Hq]).
  unfold corners_kept; simpl; intros p y s0; split; [reflexivity |].
  intros q Hq. unfold in_data in *. simpl. apply dict_mem_set. exact Hq.
Qed.

Lemma done_not_available (s : LearnerND svc) :
  bounds_are_done s = true -> _bounds_available s = false.
Proof.
  unfold bounds_are_done, _bounds_available. intro H.
  rewrite forallb_forall in H.
  destruct (existsb _ (_bounds_points s)) eqn:E; [| reflexivity].
  apply existsb_exists in E. destruct E as [p [Hin Hp]].
  rewrite (H p Hin) in Hp. rewrite andb_false_r in Hp. discriminate.
Qed.

End CornersDone.

(** X11.  Once every corner of the domain is sampled, [bounds_are_done]
    stays true and [_bounds_available] stays false over any sequence of
    calls, whether they return or raise: the corner phase of [ask] never
    comes back. *)
Theorem corners_stay_done svc nm kernel lps calls (s : LearnerND svc) :
  bounds_are_done s = true ->
  bounds_are_done (snd (run nm kernel lps calls s)) = true
  /\ _bounds_available (snd (run nm kernel lps calls s)) = false.
Proof.
  intro H.
  assert (Hd : bounds_are_done (snd (run nm kernel lps calls s)) = true).
  { destruct (run_keeps_corners nm kernel lps calls s) as [Hb Hk].
    unfold bounds_are_done in *. rewrite Hb.
    rewrite forallb_forall in *. intros p Hp. apply Hk, H, Hp. }
  split; [exact Hd | apply done_not_available; exact Hd].
Qed.

(** The statement at work: both ends of the interval are sampled, and a
    selection, a further sample and a reset later they still are. *)
Lemma corners_stay_done_witness :
  bounds_are_done
    (snd (run Line.numerics Geometry.kernel uniform_loss
              [Ask 1; Scenario.sample 1 0; RemoveUnfinished] Scenario.told_042))
  = true
  /\ _bounds_available
       (snd (run Line.numerics Geometry.kernel uniform_loss
                 [Ask 1; Scenario.sample 1 0; RemoveUnfinished] Scenario.told_042))
     = false.
Proof.
  apply corners_stay_done. reflexivity.
Defined.

(** ** Samples that do not span the domain *)

Section Coplanar.
Variable svc : Service.
Variable nm : Numerics.
Variable kernel : Kernel.

Lemma tri_coplanar (s : LearnerND svc) :
  _tri s = None -> coplanar nm s -> tri nm s = (Val None, s).
Proof.
  intros Ht Hc. unfold tri, bind at 1, get. cbn [fst snd]. rewrite Ht.
  destruct (length (data s) <? 2); [reflexivity |].
  unfold coplanar in Hc. unfold find_initial_simplex.
  destruct (points s) as [| origin rest]; [contradiction |].
  apply Nat.ltb_lt in Hc. rewrite Hc. reflexivity.
Qed.

End Coplanar.

(** X12.  While the samples do not span the domain (the rank of their
    differences is below the dimension), the learner has no triangulation
    and an access to [tri] changes nothing; [loss()] is infinite; and once
    the corners are handed out [ask] draws its point from the private
    random generator, marks it pending and gives it infinite priority. *)
Theorem coplanar_samples_defer_triangulation svc nm kernel (s : LearnerND svc) :
  _tri s = None ->
  coplanar nm s ->
  tri nm s = (Val None, s)
  /\ loss nm s = (Val Infinity, s)
  /\ (_bounds_available s = false ->
      _ask nm kernel s
      = (Val (random_point nm s, Infinity),
         mark_pending (random_point nm s)
                      (set_random (_random s + ndim s) s))).
Proof.
  intros Ht Hc. pose proof (@tri_coplanar svc nm s Ht Hc) as Htri.
  split; [exact Htri | split].
  - unfold loss, losses, bind. rewrite Htri. reflexivity.
  - intro Hav.
    unfold _ask, bind at 1, get. cbn [fst snd]. rewrite Hav.
    unfold bind at 1. rewrite Htri.
    unfold _ask_point_without_known_simplices, bind at 1, get. cbn [fst snd].
    rewrite Hav. unfold bind at 1, modify.
    fold (random_point nm s).
    set (s1 := set_random (_random s + ndim s) s).
    unfold bind at 1, _tell_pending, bind at 1, modify.
    fold (mark_pending (random_point nm s) s1).
    assert (Htri2 : tri nm (mark_pending (random_point nm s) s1)
                    = (Val None, mark_pending (random_point nm s) s1))
      by (apply tri_coplanar; [exact Ht | exact Hc]).
    unfold subdivide_for, bind at 1. rewrite Htri2. reflexivity.
Qed.

(** The statement at work: two samples on the diagonal of the unit square
    and the other two corners pending. *)
Lemma coplanar_samples_defer_triangulation_witness :
  tri Line.numerics Scenario.diagonal = (Val None, Scenario.diagonal)
  /\ loss Line.numerics Scenario.diagonal = (Val Infinity, Scenario.diagonal)
  /\ (_bounds_available Scenario.diagonal = false ->
      _ask Line.numerics Geometry.kernel Scenario.diagonal
      = (Val (random_point Line.numerics Scenario.diagonal, Infinity),
         mark_pending (random_point Line.numerics Scenario.diagonal)
           (set_random (_random Scenario.diagonal + ndim Scenario.diagonal)
                       Scenario.diagonal))).
Proof.
  apply coplanar_samples_defer_triangulation; [reflexivity |].
  unfold coplanar. simpl. lia.
Defined.

(** ** A queue of sub-cell entries after a reset *)

Lemma entry_lt_cells a b :
  is_cell a = true -> is_cell b = true -> exists r, entry_lt a b = Val r.
Proof.
  unfold is_cell, entry_lt. intros Ha Hb.
  destruct (negb (Qeq_bool (neg_loss a) (neg_loss b))); [eauto |].
  destruct (negb (simplex_eqb (home a) (home b))); [eauto |].
  destruct (sub a), (sub b); try discriminate. eauto.
Qed.

Lemma Forall_list_set A (P : A -> Prop) (h : list A) i x :
  Forall P h -> P x -> Forall P (list_set h i x).
Proof.
  intros H Hx. revert i. induction H as [| y l Hy Hl IH]; intros [| i]; simpl;
    constructor; auto.
Qed.

Lemma siftdown_loop_cells fuel : forall h startpos pos newitem,
  Forall (fun e => is_cell e = true) h -> is_cell newitem = true ->
  pos < length h ->
  exists h', siftdown_loop fuel h startpos pos newitem = Val h'
             /\ Forall (fun e => is_cell e = true) h'.
Proof.
  induction fuel as [| fuel IH]; intros h startpos pos newitem Hh Hn Hpos;
    cbn [siftdown_loop].
  - eexists. split; [reflexivity | apply Forall_list_set; assumption].
  - destruct (startpos <? pos) eqn:Hlt;
      [| eexists; split; [reflexivity | apply Forall_list_set; assumption]].
    apply Nat.ltb_lt in Hlt.
    assert (Hpar : (pos - 1) / 2 < pos) by (apply parent_below; lia).
    assert (Hp : is_cell (nth ((pos - 1) / 2) h dummy_entry) = true).
    { apply (proj1 (Forall_nth _ h) Hh). lia. }
    destruct (entry_lt_cells _ _ Hn Hp) as [[|] ->].
    + apply IH; [apply Forall_list_set; assumption | exact Hn |].
      rewrite list_set_length. lia.
    + eexists. split; [reflexivity | apply Forall_list_set; assumption].
Qed.

Lemma siftup_loop_cells fuel : forall h pos,
  Forall (fun e => is_cell e = true) h -> pos < length h ->
  exists h' pos', siftup_loop fuel h pos = Val (h', pos')
                  /\ Forall (fun e => is_cell e = true) h'
                  /\ pos' < length h'.
Proof.
  induction fuel as [| fuel IH]; intros h pos Hh Hpos; cbn [siftup_loop].
  - eauto.
  - destruct (2 * pos + 1 <? length h) eqn:Hc; [| eauto].
    apply Nat.ltb_lt in Hc.
    assert (Hpick : exists c,
               (if 2 * pos + 1 + 1 <? length h
                then match entry_lt (nth (2 * pos + 1) h dummy_entry)
                                    (nth (2 * pos + 1 + 1) h dummy_entry) with
                     | Exn e => Exn e
                     | Val true => Val (2 * pos + 1)
                     | Val false => Val (2 * pos + 1 + 1)
                     end
                else Val (2 * pos + 1)) = Val c /\ c < length h).
    { destruct (2 * pos + 1 + 1 <? length h) eqn:Hr; [| eauto].
      apply Nat.ltb_lt in Hr.
      destruct (entry_lt_cells (nth (2 * pos + 1) h dummy_entry)
                               (nth (2 * pos + 1 + 1) h dummy_entry))
        as [[|] ->]; eauto; apply (proj1 (Forall_nth _ h) Hh); lia. }
    destruct Hpick as [c [-> Hclt]].
    apply IH.
    + apply Forall_list_set; [exact Hh | apply (proj1 (Forall_nth _ h) Hh); exact Hclt].
    + rewrite list_set_length. exact Hclt.
Qed.

(** On a heap of sub-cell entries every comparison is between tuples, so
    [heappop] only fails on the empty heap. *)
Lemma heappop_cells h :
  only_cells h = true -> h <> [] ->
  exists e h', heappop h = Val (e, h') /\ is_cell e = true
               /\ only_cells h' = true /\ length h = S (length h').
Proof.
  unfold only_cells. intros Hh Hne.
  assert (HF : Forall (fun e => is_cell e = true) (rev h)).
  { apply Forall_rev, Forall_forall. apply forallb_forall. exact Hh. }
  assert (Hres : exists e h', heappop h = Val (e, h') /\ is_cell e = true
                              /\ Forall (fun e => is_cell e = true) h').
  { unfold heappop.
    destruct (rev h) as [| lastelt r] eqn:Hr.
    - apply (f_equal (@rev entry)) in Hr. rewrite rev_involutive in Hr.
      simpl in Hr. contradiction.
    - inversion HF as [| x l Hlast Hrest]; subst.
      apply Forall_rev in Hrest.
      destruct (rev r) as [| returnitem rest]; [eauto |].
      inversion Hrest as [| x l Hret Hrest']; subst.
      unfold siftup.
      assert (H1 : Forall (fun e => is_cell e = true)
                          (list_set (returnitem :: rest) 0 lastelt))
        by (apply Forall_list_set; assumption).
      destruct (@siftup_loop_cells (length (list_set (returnitem :: rest) 0 lastelt))
                  _ 0 H1) as [h1 [pos1 [-> [Hh1 Hp1]]]]; [simpl; lia |].
      destruct (@siftdown_loop_cells (S pos1) h1 0 pos1 lastelt Hh1 Hlast Hp1)
        as [h2 [Hd Hh2]].
      cbn [list_set nth]. rewrite Hd. eauto. }
  destruct Hres as [e [h' [Hpop [He Hh']]]].
  exists e, h'. repeat split; try assumption.
  - apply forallb_forall. apply Forall_forall. exact Hh'.
  - apply (heappop_length _ Hpop).
Qed.

Section StaleCells.
Variable svc : Service.
Variable nm : Numerics.
Variable kernel : Kernel.

Lemma emptied_queue (s : LearnerND svc) :
  _losses_combined s = [] -> set_losses_combined [] s = s.
Proof. destruct s. simpl. intros ->. reflexivity. Qed.

Lemma pop_loop_stale fuel : forall (s : LearnerND svc),
  _subtriangulations s = [] ->
  only_cells (_losses_combined s) = true ->
  length (_losses_combined s) <= fuel ->
  pop_loop nm fuel s = (Exn IndexError, set_losses_combined [] s).
Proof.
  induction fuel as [| fuel IH]; intros s Hsub Hcells Hlen; cbn [pop_loop].
  all: unfold bind at 1, get; cbn [fst snd].
  all: destruct (_losses_combined s) as [| e0 h0] eqn:Hh.
  all: try (simpl in Hlen; lia).
  all: try (unfold bind, lift; simpl; rewrite (emptied_queue s Hh); reflexivity).
  destruct (@heappop_cells (e0 :: h0) Hcells) as [e [h' [Hpop [He [Hh' Hl]]]]];
    [discriminate |].
  unfold bind at 1, lift. rewrite Hpop. cbn [fst snd].
  unfold bind at 1, modify.
  set (s1 := set_losses_combined h' s).
  destruct e as [l hm [c |]]; [| discriminate He].
  unfold bind at 1, ret. unfold bind at 1, get. cbn [fst snd].
  assert (Hsub1 : _subtriangulations s1 = []) by exact Hsub.
  rewrite Hsub1. cbn [dict_get]. unfold bind at 1, ret.
  rewrite (IH s1 Hsub1 Hh'); [reflexivity |].
  simpl in *. lia.
Qed.

End StaleCells.

(** X13.  [remove_unfinished()] forgets the sub-triangulations but leaves
    their entries in the queue.  If the queue holds only sub-cell entries
    (every simplex was being refined), all of them are stale after the
    reset: the next selection pops every one of them and raises
    [IndexError], and with every corner sampled so does [ask]. *)
Theorem reset_leaves_a_stale_queue svc nm kernel (s : LearnerND svc) t :
  _tri s = Some t ->
  only_cells (_losses_combined s) = true ->
  remove_unfinished s = (Val tt, forgotten s)
  /\ _pop_highest_existing_simplex nm (forgotten s)
     = (Exn IndexError, set_losses_combined [] (forgotten s))
  /\ (bounds_are_done s = true ->
      _ask nm kernel (forgotten s)
      = (Exn IndexError, set_losses_combined [] (forgotten s))).
Proof.
  intros Ht Hcells.
  assert (Hpop : _pop_highest_existing_simplex nm (forgotten s)
                 = (Exn IndexError, set_losses_combined [] (forgotten s))).
  { unfold _pop_highest_existing_simplex, bind, get. cbn [fst snd].
    apply pop_loop_stale; [reflexivity | exact Hcells | apply Nat.le_refl]. }
  split; [reflexivity | split; [exact Hpop |]].
  intro Hdone.
  assert (Hav : _bounds_available (forgotten s) = false)
    by (apply done_not_available; exact Hdone).
  assert (Ht' : _tri (forgotten s) = Some t) by exact Ht.
  unfold _ask, bind at 1, get. cbn [fst snd]. rewrite Hav.
  unfold bind at 1. rewrite (tri_built nm (forgotten s) Ht').
  unfold _ask_best_point, bind at 1, get. cbn [fst snd]. rewrite Hav.
  unfold bind at 1, ret. unfold bind at 1. rewrite (tri_built nm (forgotten s) Ht').
  unfold bind at 1, ret. unfold bind at 1. rewrite Hpop. reflexivity.
Qed.

(** The statement at work: both simplices of the interval are being
    refined when the reset comes. *)
Lemma reset_leaves_a_stale_queue_witness :
  remove_unfinished Scenario.two_pending = (Val tt, forgotten Scenario.two_pending)
  /\ _pop_highest_existing_simplex Line.numerics (forgotten Scenario.two_pending)
     = (Exn IndexError, set_losses_combined [] (forgotten Scenario.two_pending))
  /\ (bounds_are_done Scenario.two_pending = true ->
      _ask Line.numerics Geometry.kernel (forgotten Scenario.two_pending)
      = (Exn IndexError, set_losses_combined [] (forgotten Scenario.two_pending))).
Proof.
  apply (@reset_leaves_a_stale_queue Line.service Line.numerics Geometry.kernel
           Scenario.two_pending (Line.mk [[0%Q]; [4%Q]; [2%Q]] [[0; 2]; [1; 2]]));
    reflexivity.
Defined.

(** ** Entries that cannot be ordered *)

Lemma heappush_clash h l l' simpl c :
  h <> [] ->
  nth ((length h - 1) / 2) h dummy_entry = mk_entry l simpl None ->
  (l' == l)%Q ->
  heappush h (mk_entry l' simpl (Some c)) = Exn TypeError.
Proof.
  intros Hne Hpar Hl. unfold heappush, siftdown.
  rewrite length_app. cbn [length].
  replace (length h + 1 - 1) with (length h) by lia.
  rewrite app_nth2 by lia. rewrite Nat.sub_diag. cbn [nth siftdown_loop].
  assert (Hpos : 0 < length h) by (destruct h; [contradiction | simpl; lia]).
  destruct (0 <? length h) eqn:E; [| apply Nat.ltb_ge in E; lia].
  rewrite app_nth1 by (apply parent_below; exact Hpos).
  rewrite Hpar. unfold entry_lt. cbn [neg_loss home sub].
  apply Qeq_bool_iff in Hl. rewrite Hl. cbn [negb].
  rewrite simplex_eqb_refl. reflexivity.
Qed.



(** ** Degenerate simplices *)

Lemma sum_of_zeros A (f : A -> Q) (l : list A) :
  (forall x, In x l -> (f x == 0)%Q) -> (fold_right Qplus 0%Q (map f l) == 0)%Q.
Proof.
  induction l as [| x l IH]; intro H; simpl; [reflexivity |].
  rewrite (H x (or_introl eq_refl)), IH; [reflexivity |].
  intros y Hy. apply H. right. exact Hy.
Qed.

Lemma remove_nth_zero j (row : list Q) :
  Forall (fun x => (x == 0)%Q) row -> Forall (fun x => (x == 0)%Q) (remove_nth j row).
Proof.
  intro H. revert j. induction H as [| x l Hx Hl IH]; intros [| j]; simpl; auto.
Qed.

(** A matrix with a row of zeros has determinant 0. *)
Lemma det_fuel_zero_row n : forall m,
  n = length m ->
  Exists (Forall (fun x => (x == 0)%Q)) m ->
  (det_fuel n m == 0)%Q.
Proof.
  induction n as [| n IH]; intros m Hn Hex.
  - destruct m; [inversion Hex | discriminate].
  - destruct m as [| row rest]; [discriminate |].
    injection Hn as Hn. cbn [det_fuel].
    apply sum_of_zeros. intros [j x] Hin. cbn [fst snd].
    inversion Hex as [r l Hrow | r l Hrest]; subst.
    + assert (Hx : (x == 0)%Q).
      { apply in_combine_r in Hin.
        exact (proj1 (Forall_forall _ row) Hrow x Hin). }
      rewrite Hx. ring.
    + rewrite (IH (map (remove_nth j) rest)).
      * ring.
      * rewrite length_map. reflexivity.
      * apply Exists_exists in Hrest. destruct Hrest as [r [Hr Hz]].
        apply Exists_exists. exists (remove_nth j r). split.
        -- apply in_map. exact Hr.
        -- apply remove_nth_zero. exact Hz.
Qed.

Lemma vsub_equal_points p q :
  point_eqb p q = true -> Forall (fun x => (x == 0)%Q) (vsub p q).
Proof.
  revert q. induction p as [| x p IH]; intros [| y q] H; simpl in *;
    try discriminate; [constructor |].
  apply andb_prop in H. destruct H as [Hx Hp].
  apply Qeq_bool_iff in Hx. constructor.
  - simpl. rewrite Hx. ring.
  - apply IH. exact Hp.
Qed.

Lemma det_of_repeated_vertex (simplex : list Point) p :
  In p (removelast simplex) ->
  point_eqb p (last simplex []) = true ->
  (det (map (fun q => vsub q (last simplex [])) (removelast simplex)) == 0)%Q.
Proof.
  intros Hin Heq. unfold det. apply det_fuel_zero_row; [reflexivity |].
  apply Exists_exists. exists (vsub p (last simplex [])). split.
  - apply (in_map (fun q => vsub q (last simplex []))). exact Hin.
  - apply vsub_equal_points. exact Heq.
Qed.

(** X15.  A simplex one of whose vertices coincides with its last vertex is
    degenerate: [volume] (and with it the loss [uniform_loss]) is 0 and
    [orientation] is 0. *)
Theorem repeated_vertex_has_no_volume (simplex : list Point) p :
  simplex_shape simplex ->
  In p (removelast simplex) ->
  point_eqb p (last simplex []) = true ->
  (volume simplex == 0)%Q /\ orientation simplex = 0%Z.
Proof.
  intros _ Hin Heq. pose proof (det_of_repeated_vertex simplex p Hin Heq) as Hd.
  split.
  - unfold volume. cbv zeta. rewrite Hd. reflexivity.
  - unfold orientation. cbv zeta. apply Qeq_alt in Hd. rewrite Hd. reflexivity.
Qed.

(** The statement at work: a triangle whose first and last corners are
    the same point. *)
Lemma repeated_vertex_has_no_volume_witness :
  (volume [[1; 2]; [3; 5]; [1; 2]]%Q == 0)%Q
  /\ orientation [[1; 2]; [3; 5]; [1; 2]]%Q = 0%Z.
Proof.
  apply (@repeated_vertex_has_no_volume [[1; 2]; [3; 5]; [1; 2]]%Q [1; 2]%Q).
  - repeat constructor.
  - simpl. left. reflexivity.
  - reflexivity.
Defined.

(** ** The spatial index *)

Lemma dict_set_new_length V (d : list (Point * V)) p v :
  dict_mem point_eqb d p = false ->
  length (dict_set point_eqb d p v) = S (length d).
Proof.
  unfold dict_mem. induction d as [| [k w] d IH]; simpl; [reflexivity |].
  destruct (point_eqb p k); [discriminate |].
  intro H. simpl. rewrite (IH H). reflexivity.
Qed.

Section SpatialIndex.
Variable svc : Service.
Variable nm : Numerics.
Variable kernel : Kernel.
Variable loss_per_simplex : list Point -> list value -> outcome Q.

Ltac store_frame :=
  try (match goal with |- respects _ (tri _) => apply respects_tri_setter end);
  try (unfold same_store; simpl; intros; split; reflexivity);
  try (unfold same_store; intros ? ? ? [? ?] [? ?]; split; congruence).

Lemma tell_pending_same_store p sx : respects (@same_store svc) (_tell_pending nm p sx).
Proof. apply respects_tell_pending; store_frame. Qed.

Lemma tell_triangulate_same_store p :
  respects (@same_store svc) (tell_triangulate nm loss_per_simplex p).
Proof. apply respects_tell_triangulate; store_frame. Qed.

Lemma ask_same_store n : respects (@same_store svc) (ask nm kernel n).
Proof. apply respects_ask; store_frame. Qed.

Lemma loss_same_store : respects (@same_store svc) (loss nm).
Proof. apply respects_loss; store_frame. Qed.

Lemma same_store_indexed (s s' : LearnerND svc) :
  same_store s s' -> tree_indexed s -> tree_indexed s'.
Proof.
  unfold same_store, tree_indexed, npoints. intros [Hd Ht] H. rewrite Hd, Ht. exact H.
Qed.

Lemma tell_keeps_index p v (s : LearnerND svc) :
  tree_indexed s -> tree_indexed (snd (tell nm loss_per_simplex p v s)).
Proof.
  intro Hs. unfold tell. unfold bind at 1. unfold print, modify.
  set (s0 := set_stdout (stdout s ++ [PrintedPoint p]) s).
  assert (Hs0 : tree_indexed s0) by exact Hs.
  unfold bind at 1. unfold get.
  destruct (in_data s0 p) eqn:Hin; [exact Hs0 |].
  destruct v as [y |].
  - unfold bind.
    destruct (Nat.eq_dec (length p) (length (_scale_matrix s0))) as [Hlen | Hlen].
    + rewrite (tell_store_effect s0 p y Hlen).
      match goal with
      | |- context [tell_triangulate _ _ _ ?s1] =>
          pose proof (tell_triangulate_same_store p s1) as H2;
          assert (H1 : tree_indexed s1);
          [| destruct (tell_triangulate nm loss_per_simplex p s1) as [[u | e] s2];
             cbn [snd] in *; exact (same_store_indexed H2 H1) ]
      end.
      unfold tree_indexed, npoints in *. simpl.
      rewrite map_app, Hs. simpl.
      rewrite (dict_set_new_length (data s) p y Hin).
      rewrite seq_S. reflexivity.
    + rewrite (tell_store_wrong_length s0 p y Hlen). exact Hs0.
  - pose proof (tell_pending_same_store p None s0) as H.
    exact (same_store_indexed H Hs0).
Qed.

Lemma perform_keeps_index c (s : LearnerND svc) :
  tree_indexed s -> tree_indexed (snd (perform nm kernel loss_per_simplex c s)).
Proof.
  intro Hs. destruct c as [p v | n | |]; cbn [perform].
  - pose proof (tell_keeps_index p v Hs) as H. unfold bind.
    destruct (tell nm loss_per_simplex p v s) as [[u | e] s1]; exact H.
  - pose proof (ask_same_store n s) as H. unfold bind.
    destruct (ask nm kernel n s) as [[r | e] s1]; unfold ret; cbn [snd] in *;
      exact (same_store_indexed H Hs).
  - pose proof (loss_same_store s) as H. unfold bind.
    destruct (loss nm s) as [[r | e] s1]; unfold ret; cbn [snd] in *;
      exact (same_store_indexed H Hs).
  - exact Hs.
Qed.

Lemma run_keeps_index calls : forall (s : LearnerND svc),
  tree_indexed s -> tree_indexed (snd (run nm kernel loss_per_simplex calls s)).
Proof.
  induction calls as [| c rest IH]; intros s H; [exact H |].
  cbn [run].
  pose proof (perform_keeps_index c H) as Hc.
  destruct (perform nm kernel loss_per_simplex c s) as [a s1]. cbn [snd] in Hc.
  specialize (IH s1 Hc).
  destruct (run nm kernel loss_per_simplex rest s1) as [answers s2]. exact IH.
Qed.

End SpatialIndex.

(** X16.  The spatial index is filed by sample number: from a new learner
    on, over any sequence of calls, whether they return or raise, the
    index holds exactly one entry per sample and their keys are 0, 1, 2,
    ... up to [npoints]. *)
Theorem point_tree_numbers_the_samples svc nm kernel lps bnds anisotropic calls
        (s0 : LearnerND svc) :
  init svc bnds anisotropic = Val s0 ->
  tree_indexed (snd (run nm kernel lps calls s0))
  /\ length (_point_tree (snd (run nm kernel lps calls s0)))
     = npoints (snd (run nm kernel lps calls s0)).
Proof.
  intro Hinit.
  assert (H0 : tree_indexed s0).
  { unfold init in Hinit.
    destruct (inv_diag (diff bnds)); [| discriminate].
    injection Hinit as <-. reflexivity. }
  pose proof (run_keeps_index nm kernel lps calls H0) as H.
  split; [exact H |].
  unfold tree_indexed in H.
  rewrite <- (length_map fst), H. apply length_seq.
Qed.

(** The statement at work: samples, one point told twice, a request and a
    point of the wrong length. *)
Lemma point_tree_numbers_the_samples_witness :
  tree_indexed
    (snd (run Line.numerics Geometry.kernel uniform_loss
              [Scenario.sample 0 0; Scenario.request 1; Scenario.sample 1 0;
               Scenario.sample 0 5; Tell [1%Q; 2%Q] (Some (Scalar 0))]
              (Scenario.final [(0, 4)%Q] [])))
  /\ length (_point_tree
       (snd (run Line.numerics Geometry.kernel uniform_loss
              [Scenario.sample 0 0; Scenario.request 1; Scenario.sample 1 0;
               Scenario.sample 0 5; Tell [1%Q; 2%Q] (Some (Scalar 0))]
              (Scenario.final [(0, 4)%Q] []))))
     = npoints
       (snd (run Line.numerics Geometry.kernel uniform_loss
              [Scenario.sample 0 0; Scenario.request 1; Scenario.sample 1 0;
               Scenario.sample 0 5; Tell [1%Q; 2%Q] (Some (Scalar 0))]
              (Scenario.final [(0, 4)%Q] []))).
Proof.
  apply (@point_tree_numbers_the_samples Line.service Line.numerics Geometry.kernel
           uniform_loss [(0, 4)%Q] false).
  reflexivity.
Defined.
